(** * RedisStorageDelegate: the Redis-backed storage delegate of
      [jupyter_health/ch_client.py]

    A shallow embedding of the class [RedisStorageDelegate] and of the two
    Redis commands it uses.  Python dict objects live in a heap of
    objects addressed by location, because the delegate hands out views
    ([dict.keys()], [dict.items()]) that alias the cached dict, and because
    [_load] rebinds the cache to a new dict while [pop] and item assignment
    mutate the cached dict in place. *)

From stdpp Require Import gmap strings list fin_maps.

Open Scope string_scope.
Open Scope list_scope.

(** ** Values, exceptions, Redis calls *)

(** What [get_secure_value] can hand back: a stored string, or whatever the
    caller passed as [default] (by default Python's [None]). *)
Inductive value :=
| VNone
| VStr (s : string).

(** The exceptions that the modelled code paths can raise. *)
Inductive exn :=
| NotImplementedError (msg : string)
| TypeError
| AttributeError
| KeyError (key : string)
| DataError (msg : string).

Inductive outcome (A : Type) :=
| Returns (a : A)
| Raises (e : exn).
Arguments Returns {A} a.
Arguments Raises {A} e.

(** Calls made on the Redis client, in the order they were made. *)
Inductive redis_call :=
| HGETALL (name : string)
| HSET (name : string) (mapping : gmap string string).

(** Locations of dict objects. *)
Abbreviation loc := nat.

(** The world outside one delegate instance: the dict objects allocated so
    far, the hashes held by the Redis server, and the log of client calls. *)
Record World := mkWorld {
  heap : list (gmap string string);
  db : gmap string (gmap string string);
  calls : list redis_call
}.

(** The instance attributes of a delegate ([self.redis] is the connection to
    the server modelled by [db]). *)
Record RedisStorageDelegate := mkDelegate {
  name : string;
  _cached_value : option loc
}.

(** [__init__]: nothing is cached at construction. *)
Definition __init__ (n : string) : RedisStorageDelegate :=
  {| name := n; _cached_value := None |}.

(** ** The monad of method bodies: state is [self] and the world; an
    exception keeps the state reached when it was raised. *)
Definition M (A : Type) : Type :=
  RedisStorageDelegate * World -> outcome A * (RedisStorageDelegate * World).

Definition ret {A} (a : A) : M A := fun s => (Returns a, s).
Definition raise {A} (e : exn) : M A := fun s => (Raises e, s).
Definition bind {A B} (m : M A) (f : A -> M B) : M B :=
  fun s =>
    match m s with
    | (Returns a, s') => f a s'
    | (Raises e, s') => (Raises e, s')
    end.

Notation "'let!' x ':=' m 'in' k" := (bind m (fun x => k))
  (at level 10, x name, m at level 100, k at level 200).
Notation "m ;;; k" := (bind m (fun _ => k))
  (at level 100, right associativity).

Definition get_self : M RedisStorageDelegate :=
  fun '(self, w) => (Returns self, (self, w)).
Definition get_world : M World :=
  fun '(self, w) => (Returns w, (self, w)).
Definition put_world (w' : World) : M unit :=
  fun '(self, _) => (Returns tt, (self, w')).
Definition set_cached_value (o : option loc) : M unit :=
  fun '(self, w) => (Returns tt, ({| name := name self; _cached_value := o |}, w)).

(** ** Dict objects *)

(** The dict stored at a location. *)
Definition deref (w : World) (l : loc) : gmap string string :=
  default ∅ (heap w !! l).

Definition store (l : loc) (d : gmap string string) (w : World) : World :=
  {| heap := <[l := d]> (heap w); db := db w; calls := calls w |}.

(** A new dict object; its location is the next free one. *)
Definition alloc (d : gmap string string) : M loc :=
  let! w := get_world in
  put_world {| heap := heap w ++ [d]; db := db w; calls := calls w |} ;;;
  ret (length (heap w)).

(** [d.get(key, default)] *)
Definition dict_get (o : option loc) (key : string) (default : value) : M value :=
  match o with
  | None => raise AttributeError
  | Some l =>
      let! w := get_world in
      ret (match deref w l !! key with Some v => VStr v | None => default end)
  end.

(** [d[key] = value] *)
Definition dict_setitem (o : option loc) (key val : string) : M unit :=
  match o with
  | None => raise TypeError
  | Some l =>
      let! w := get_world in
      put_world (store l (<[key := val]> (deref w l)) w)
  end.

(** [key in d] *)
Definition dict_contains (o : option loc) (key : string) : M bool :=
  match o with
  | None => raise TypeError
  | Some l =>
      let! w := get_world in
      ret (bool_decide (is_Some (deref w l !! key)))
  end.

(** [d.pop(key)] without a default: [KeyError] when the key is missing. *)
Definition dict_pop (o : option loc) (key : string) : M string :=
  match o with
  | None => raise AttributeError
  | Some l =>
      let! w := get_world in
      match deref w l !! key with
      | Some v => put_world (store l (delete key (deref w l)) w) ;;; ret v
      | None => raise (KeyError key)
      end
  end.

(** The views returned by [d.keys()] and [d.items()]: they hold the dict
    object, not a copy of its contents. *)
Record KeysView := mkKeysView { keys_dict : loc }.
Record ItemsView := mkItemsView { items_dict : loc }.

Definition dict_keys (o : option loc) : M KeysView :=
  match o with
  | None => raise AttributeError
  | Some l => ret (mkKeysView l)
  end.

Definition dict_items (o : option loc) : M ItemsView :=
  match o with
  | None => raise AttributeError
  | Some l => ret (mkItemsView l)
  end.

(** Enumerating a view reads the dict as it is at that moment. *)
Definition enumerate_keys (w : World) (v : KeysView) : list string :=
  (map_to_list (deref w (keys_dict v))).*1.
Definition enumerate_items (w : World) (v : ItemsView) : list (string * string) :=
  map_to_list (deref w (items_dict v)).

(** ** The Redis client (redis-py, [decode_responses=True]) *)

(** The hash stored under a name; a name that holds nothing reads as the
    empty hash. *)
Definition hash_of (w : World) (n : string) : gmap string string :=
  default ∅ (db w !! n).

Definition log_call (c : redis_call) : M unit :=
  let! w := get_world in
  put_world {| heap := heap w; db := db w; calls := calls w ++ [c] |}.

(** [redis.hgetall(name)]: all fields of the hash, as a new dict. *)
Definition hgetall (n : string) : M loc :=
  log_call (HGETALL n) ;;;
  let! w := get_world in
  alloc (hash_of w n).

(** [redis.hset(name, mapping=m)]: rejects a mapping without fields,
    otherwise sets every field of [m] in the hash and keeps the other fields
    of the hash; returns the number of fields that were new. *)
Definition hset (n : string) (mapping : option loc) : M nat :=
  let! w := get_world in
  let m := match mapping with Some l => deref w l | None => ∅ end in
  log_call (HSET n m) ;;;
  if decide (m = ∅) then raise (DataError "'hset' with no key value pairs")
  else
    let! w := get_world in
    put_world {| heap := heap w; db := <[n := m ∪ hash_of w n]> (db w);
                 calls := calls w |} ;;;
    ret (size (m ∖ hash_of w n)).

(** ** The methods of [RedisStorageDelegate] *)

(** [_load]: rebinds the cache to the dict just read from the server. *)
Definition _load : M unit :=
  let! self := get_self in
  let! d := hgetall (name self) in
  set_cached_value (Some d).

(** [_save]: "Persist any changes to the secret". *)
Definition _save : M unit :=
  let! self := get_self in
  match _cached_value self with
  | Some l => hset (name self) (Some l) ;;; ret tt
  | None => ret tt
  end.

(** Calling a function through an instance passes the instance as first
    positional argument; a function declared with another number of
    positional parameters than it receives raises [TypeError] before its
    body runs. *)
Definition bound_call {A} (nparams nargs : nat) (body : M A) : M A :=
  if Nat.eqb nparams (S nargs) then body else raise TypeError.

(** The function that [def clear_all_values() -> None] defines: it has no
    parameter, not even [self]. *)
Definition clear_all_values_function : M unit :=
  raise (NotImplementedError "Clear all values not allowed").

(** [delegate.clear_all_values()] *)
Definition clear_all_values : M unit :=
  bound_call 0 0 clear_all_values_function.

(** The property [_secret_value]: loads the secret if it has not been loaded
    yet, and returns the cached object. *)
Definition _secret_value : M (option loc) :=
  let! self := get_self in
  match _cached_value self with
  | None => _load
  | Some _ => ret tt
  end ;;;
  let! self := get_self in
  ret (_cached_value self).

Definition get_secure_value (key : string) (default : value) : M value :=
  let! d := _secret_value in
  dict_get d key default.

Definition set_secure_value (key val : string) : M unit :=
  _load ;;;
  let! d := _secret_value in
  dict_setitem d key val ;;;
  _save.

Definition clear_value (key : string) : M unit :=
  let! d := _secret_value in
  let! present := dict_contains d key in
  if negb present then ret tt
  else
    let! d := _secret_value in
    dict_pop d key ;;;
    _save.

Definition keys : M KeysView :=
  let! d := _secret_value in
  dict_keys d.

Definition items : M ItemsView :=
  let! d := _secret_value in
  dict_items d.

(** ** Observations used in the statements *)

(** The record as this delegate sees it: its cached dict when it has one,
    otherwise what a load would read from the server. *)
Definition secret_view (self : RedisStorageDelegate) (w : World) : gmap string string :=
  match _cached_value self with
  | Some l => deref w l
  | None => hash_of w (name self)
  end.

(** The cache points at an allocated dict object. *)
Definition wf (self : RedisStorageDelegate) (w : World) : Prop :=
  match _cached_value self with
  | Some l => l < length (heap w)
  | None => True
  end.

(** Whether a call writes to the server. *)
Definition is_hset (c : redis_call) : bool :=
  match c with HSET _ _ => true | HGETALL _ => false end.

(** The state in which the lazy load leaves an uncached delegate. *)
Definition loaded (self : RedisStorageDelegate) (w : World) :
  RedisStorageDelegate * World :=
  ({| name := name self; _cached_value := Some (length (heap w)) |},
   {| heap := heap w ++ [hash_of w (name self)]; db := db w;
      calls := calls w ++ [HGETALL (name self)] |}).

(** The [HSET] calls among the calls made so far. *)
Definition hset_calls (w : World) : list redis_call :=
  List.filter is_hset (calls w).

(** A run of [clear_value] calls, whatever each of them returns or raises. *)
Fixpoint clear_values (ks : list string) (s : RedisStorageDelegate * World) :
  RedisStorageDelegate * World :=
  match ks with
  | [] => s
  | k :: ks' => clear_values ks' (clear_value k s).2
  end.

(** ** Concrete states for the examples *)

Definition rec_a1 : gmap string string := {[ "a" := "1" ]}.
Definition rec_a1_b2 : gmap string string := <[ "b" := "2" ]> rec_a1.

Definition world_of (n : string) (r : gmap string string) : World :=
  {| heap := []; db := {[ n := r ]}; calls := [] |}.

Definition delegate_A : RedisStorageDelegate := __init__ "ch-cloud-delegate-prod".
Definition delegate_B : RedisStorageDelegate := __init__ "ch-cloud-delegate-prod".
Definition world_a1 : World := world_of "ch-cloud-delegate-prod" rec_a1.
Definition world_a1_b2 : World := world_of "ch-cloud-delegate-prod" rec_a1_b2.

(** A server that holds nothing. *)
Definition world_empty : World := {| heap := []; db := ∅; calls := [] |}.

(** A delegate whose cached dict is [{a:1}] while the server holds
    [{a:1, b:2}]. *)
Definition delegate_cached : RedisStorageDelegate :=
  {| name := "ch-cloud-delegate-prod"; _cached_value := Some 0 |}.
Definition world_cached_a1 : World :=
  {| heap := [rec_a1]; db := {[ "ch-cloud-delegate-prod" := rec_a1_b2 ]};
     calls := [] |}.

(** ** Sequences of calls on one delegate *)

(** A call made on a delegate by its user. *)
Inductive method_call :=
| CallGet (key : string) (default : value)
| CallSet (key val : string)
| CallClear (key : string)
| CallKeys
| CallItems
| CallClearAll.

(** The state after a call, whether it returned or raised. *)
Definition after_call (c : method_call) (s : RedisStorageDelegate * World) :
  RedisStorageDelegate * World :=
  match c with
  | CallGet k d => (get_secure_value k d s).2
  | CallSet k v => (set_secure_value k v s).2
  | CallClear k => (clear_value k s).2
  | CallKeys => (keys s).2
  | CallItems => (items s).2
  | CallClearAll => (clear_all_values s).2
  end.

Fixpoint after_calls (cs : list method_call) (s : RedisStorageDelegate * World) :
  RedisStorageDelegate * World :=
  match cs with
  | [] => s
  | c :: cs' => after_calls cs' (after_call c s)
  end.

(** The calls that only read. *)
Definition is_read (c : method_call) : bool :=
  match c with
  | CallGet _ _ | CallKeys | CallItems => true
  | CallSet _ _ | CallClear _ | CallClearAll => false
  end.

(** ** [JupyterHealthCHClient.list_patients] *)

(** [s.startswith(p)] *)
Definition startswith (s p : string) : bool := String.prefix p s.

(** [s] without its first [n] characters. *)
Fixpoint skip (n : nat) (s : string) : string :=
  match n, s with
  | 0, _ => s
  | S n', String _ s' => skip n' s'
  | S _, EmptyString => EmptyString
  end.

(** The split of [s] at the first occurrence of [sep]: what is before it and
    what is after it. *)
Fixpoint split_first (sep s : string) : option (string * string) :=
  if String.prefix sep s then Some (EmptyString, skip (String.length sep) s)
  else
    match s with
    | EmptyString => None
    | String c s' =>
        match split_first sep s' with
        | Some (before, after) => Some (String c before, after)
        | None => None
        end
    end.

(** [s.partition(sep)] for a separator that is not empty: the part before
    the first separator, the separator, and the part after it; the whole
    string and two empty strings when there is no separator. *)
Definition partition (s sep : string) : string * string * string :=
  match split_first sep s with
  | Some (before, after) => (before, sep, after)
  | None => (s, EmptyString, EmptyString)
  end.

(** The body of the loop of [list_patients], for one key. *)
Definition list_patients_step (patient_list : list string) (key : string) :
  list string :=
  if startswith key "patient_id_mapping/" then
    let '(_prefix, _, name) := partition key "/" in
    patient_list ++ [name]
  else patient_list.

(** [list_patients], with the client's [storage_delegate] as the delegate of
    the monad.  The keys are visited in the order in which the view
    enumerates them. *)
Definition list_patients : M (list string) :=
  let! view := keys in
  let! w := get_world in
  ret (foldl list_patients_step [] (enumerate_keys w view)).

(** The patient name that [list_patients] takes from a key, if it takes
    one: what follows the prefix. *)
Definition patient_of (key : string) : option string :=
  if startswith key "patient_id_mapping/"
  then Some (skip (String.length "patient_id_mapping/") key)
  else None.

(** ** [JupyterHealthCHClient.__init__] *)

(** The constructor talks to three things outside this file: the secrets
    client (boto3), [json.loads], and the constructor of the base class
    [CHClient].  They are parameters of the model: [ext] is the type of the
    exceptions they raise, [obj] the type of the Python objects that are
    neither strings, integers nor storage delegates. *)

(** Values of keyword arguments and of JSON fields. *)
Inductive pyval (obj : Type) :=
| PStr (s : string)
| PInt (z : Z)
| PStorage (d : RedisStorageDelegate)
| PObj (o : obj).
Arguments PStr {obj} s.
Arguments PInt {obj} z.
Arguments PStorage {obj} d.
Arguments PObj {obj} o.

(** What [json.loads] returns: an object with its fields, or another JSON
    value (array, string, number, boolean, null). *)
Inductive json (obj : Type) :=
| JObject (fields : gmap string (pyval obj))
| JOther (o : obj).
Arguments JObject {obj} fields.
Arguments JOther {obj} o.

(** Outcome of a step of the constructor: a result, a Python exception
    raised by the constructor's own code, or an exception from outside. *)
Inductive init_outcome (ext A : Type) :=
| Done (a : A)
| Fails (e : exn)
| FailsOutside (e : ext).
Arguments Done {ext A} a.
Arguments Fails {ext A} e.
Arguments FailsOutside {ext A} e.

Definition init_bind {ext A B} (m : init_outcome ext A)
    (f : A -> init_outcome ext B) : init_outcome ext B :=
  match m with
  | Done a => f a
  | Fails e => Fails e
  | FailsOutside e => FailsOutside e
  end.

Notation "'let?' x ':=' m 'in' k" := (init_bind m (fun x => k))
  (at level 10, x name, m at level 100, k at level 200).

(** A secrets client: [client.get_secret_value(SecretId=id)], reduced to the
    ["SecretString"] entry of the response, if the response has one. *)
Definition secrets_client (ext : Type) : Type :=
  string -> init_outcome ext (option string).

Record Outside (ext obj : Type) := mkOutside {
  (** [boto3.session.Session().client(service_name="secretsmanager",
      region_name="us-east-2")] *)
  boto3_client : init_outcome ext (secrets_client ext);
  json_loads : string -> init_outcome ext (json obj);
  (** the base class constructor, called with the keyword arguments *)
  CHClient__init__ : gmap string (pyval obj) -> init_outcome ext unit
}.
Arguments boto3_client {ext obj} _.
Arguments json_loads {ext obj} _ _.
Arguments CHClient__init__ {ext obj} _ _.

(** [response["SecretString"]] *)
Definition response_getitem {ext} (r : option string) :
  init_outcome ext string :=
  match r with
  | Some s => Done s
  | None => Fails (KeyError "SecretString")
  end.

(** [credentials[key]]: a missing field is a [KeyError]; a JSON value that
    is not an object cannot be indexed by a string. *)
Definition json_getitem {ext obj} (j : json obj) (key : string) :
  init_outcome ext (pyval obj) :=
  match j with
  | JObject fields =>
      match fields !! key with
      | Some v => Done v
      | None => Fails (KeyError key)
      end
  | JOther _ => Fails TypeError
  end.

(** The attributes that the constructor sets, and the keyword arguments it
    hands to the base class. *)
Record JupyterHealthCHClient (ext obj : Type) := mkClient {
  deployment : string;
  client : secrets_client ext;
  base_kwargs : gmap string (pyval obj)
}.
Arguments deployment {ext obj} _.
Arguments client {ext obj} _.
Arguments base_kwargs {ext obj} _.

(** The defaults of the keyword arguments, before the caller's own are
    applied. *)
Definition default_kwargs {obj} (storage : RedisStorageDelegate)
    (partner_id client_id client_secret : pyval obj) : gmap string (pyval obj) :=
  list_to_map [
    ("ch_authorization_deeplink",
       PStr "https://appdev.tcpdev.org/m/phr/cloud-sharing/authorize");
    ("ch_host", PStr "chcs.tcpdev.org");
    ("ch_port", PInt 443);
    ("ch_scheme", PStr "https");
    ("storage_delegate", PStorage storage);
    ("partner_id", partner_id);
    ("client_id", client_id);
    ("client_secret", client_secret)
  ].

(** [JupyterHealthCHClient(deployment, client=client, **user_kwargs)];
    [client = None] stands for the keyword left out. *)
Definition JupyterHealthCHClient__init__ {ext obj} (out : Outside ext obj)
    (deployment_ : string) (client_ : option (secrets_client ext))
    (user_kwargs : gmap string (pyval obj)) :
  init_outcome ext (JupyterHealthCHClient ext obj) :=
  let storage_delegate_secret_name := "ch-cloud-delegate-" +:+ deployment_ in
  let credentials_secret_name := "ch-cloud-creds-" +:+ deployment_ in
  let? client_ := match client_ with
                  | None => boto3_client out
                  | Some c => Done c
                  end in
  let? credentials_secret := client_ credentials_secret_name in
  let? secret_string := response_getitem credentials_secret in
  let? credentials := json_loads out secret_string in
  let storage := __init__ storage_delegate_secret_name in
  let? partner_id := json_getitem credentials "partner_id" in
  let? client_id := json_getitem credentials "client_id" in
  let? client_secret := json_getitem credentials "client_secret" in
  let kwargs := default_kwargs storage partner_id client_id client_secret in
  let kwargs := user_kwargs ∪ kwargs in
  let? _ := CHClient__init__ out kwargs in
  Done {| deployment := deployment_; client := client_; base_kwargs := kwargs |}.

(** Whether a JSON object lacks a field. *)
Definition lacks {obj} (fields : gmap string (pyval obj)) (key : string) : bool :=
  match fields !! key with
  | None => true
  | Some _ => false
  end.

(** An outside world for the examples: no failures, and every secret string
    parses to the same three credentials. *)
Definition example_credentials : gmap string (pyval unit) :=
  list_to_map [("partner_id", PStr "p"); ("client_id", PStr "c");
               ("client_secret", PStr "s")].
Definition example_secrets : secrets_client unit :=
  fun _ => Done (Some "{...}").
Definition example_secrets_no_string : secrets_client unit :=
  fun _ => Done None.
Definition example_outside_partial : Outside unit unit :=
  {| boto3_client := Done example_secrets;
     json_loads := fun _ => Done (JObject {[ "partner_id" := PStr "p" ]});
     CHClient__init__ := fun _ => Done tt |}.
Definition example_outside : Outside unit unit :=
  {| boto3_client := Done example_secrets;
     json_loads := fun _ => Done (JObject example_credentials);
     CHClient__init__ := fun _ => Done tt |}.

(** The hashes of [w'] are those of [w] except under the name [n0], and no
    hash has lost a field. *)
Definition db_grows (n0 : string) (w w' : World) : Prop :=
  (∀ n, n ≠ n0 -> db w' !! n = db w !! n)
  ∧ (∀ n, dom (hash_of w n) ⊆ dom (hash_of w' n)).

(** ** Heap and hash lemmas *)

Section Heap.
Context (h : list (gmap string string)) (d : gmap string string).

Lemma deref_new e cs' :
  deref {| heap := h ++ [d]; db := e; calls := cs' |} (length h) = d.
Proof. unfold deref; simpl. by rewrite list_lookup_middle. Qed.

Lemma store_new d' e cs' :
  store (length h) d' {| heap := h ++ [d]; db := e; calls := cs' |}
  = {| heap := h ++ [d']; db := e; calls := cs' |}.
Proof.
  unfold store; simpl. f_equal.
  rewrite insert_app_r_alt by lia. by rewrite Nat.sub_diag.
Qed.
End Heap.

Lemma deref_store_eq w l d :
  l < length (heap w) -> deref (store l d w) l = d.
Proof. intros Hl. unfold deref, store; simpl. by rewrite list_lookup_insert_eq. Qed.

Lemma deref_nonempty_lt w l :
  deref w l ≠ ∅ -> l < length (heap w).
Proof.
  unfold deref. intros Hne. destruct (heap w !! l) eqn:E; [|done].
  by eapply lookup_lt_Some.
Qed.

Lemma hash_of_insert (e : gmap string (gmap string string)) h cs n r :
  hash_of {| heap := h; db := <[n := r]> e; calls := cs |} n = r.
Proof. unfold hash_of; simpl. by rewrite lookup_insert_eq. Qed.

Lemma insert_union_self (k v : string) (r : gmap string string) :
  <[k := v]> r ∪ r = <[k := v]> r.
Proof. rewrite <- insert_union_l. by rewrite map_union_idemp. Qed.

Lemma insert_nonempty (k v : string) (r : gmap string string) :
  <[k := v]> r ≠ ∅.
Proof. apply insert_non_empty. Qed.

(** ** What each method does, as an equation on the state *)

Lemma bind_Returns {A B} (m : M A) (f : A -> M B) s a s' :
  m s = (Returns a, s') -> bind m f s = f a s'.
Proof. intros Hm. unfold bind. by rewrite Hm. Qed.

Lemma dict_contains_eq l k self w :
  dict_contains (Some l) k (self, w)
  = (Returns (bool_decide (is_Some (deref w l !! k))), (self, w)).
Proof. reflexivity. Qed.

Lemma dict_pop_Some l k v self w :
  deref w l !! k = Some v ->
  dict_pop (Some l) k (self, w)
  = (Returns v, (self, store l (delete k (deref w l)) w)).
Proof.
  intros Hk. unfold dict_pop.
  erewrite bind_Returns by reflexivity. by rewrite Hk.
Qed.

Lemma _load_eq self w :
  _load (self, w)
  = (Returns tt,
     ({| name := name self; _cached_value := Some (length (heap w)) |},
      {| heap := heap w ++ [hash_of w (name self)]; db := db w;
         calls := calls w ++ [HGETALL (name self)] |})).
Proof. reflexivity. Qed.

Lemma _secret_value_cached self w l :
  _cached_value self = Some l ->
  _secret_value (self, w) = (Returns (Some l), (self, w)).
Proof.
  intros Hc. unfold _secret_value, bind, get_self, ret; simpl.
  rewrite Hc; simpl. by rewrite ?Hc.
Qed.

Lemma _secret_value_uncached self w :
  _cached_value self = None ->
  _secret_value (self, w)
  = (Returns (Some (length (heap w))),
     ({| name := name self; _cached_value := Some (length (heap w)) |},
      {| heap := heap w ++ [hash_of w (name self)]; db := db w;
         calls := calls w ++ [HGETALL (name self)] |})).
Proof.
  intros Hc. unfold _secret_value, bind, get_self, ret; simpl.
  rewrite Hc; simpl. by rewrite ?Hc.
Qed.

Lemma _save_uncached self w :
  _cached_value self = None -> _save (self, w) = (Returns tt, (self, w)).
Proof. intros Hc. unfold _save, bind, get_self; simpl. by rewrite Hc. Qed.

Lemma _save_empty self w l :
  _cached_value self = Some l -> deref w l = ∅ ->
  _save (self, w)
  = (Raises (DataError "'hset' with no key value pairs"),
     (self, {| heap := heap w; db := db w;
               calls := calls w ++ [HSET (name self) ∅] |})).
Proof.
  intros Hc He. unfold _save, bind, get_self; simpl. rewrite Hc.
  unfold hset, bind, get_world, log_call, put_world; simpl.
  rewrite He. rewrite decide_True by done. by destruct self.
Qed.

Lemma _save_nonempty self w l :
  _cached_value self = Some l -> deref w l ≠ ∅ ->
  _save (self, w)
  = (Returns tt,
     (self, {| heap := heap w;
               db := <[name self := deref w l ∪ hash_of w (name self)]> (db w);
               calls := calls w ++ [HSET (name self) (deref w l)] |})).
Proof.
  intros Hc He. unfold _save, bind, get_self; simpl. rewrite Hc.
  unfold hset, bind, get_world, log_call, put_world; simpl.
  rewrite decide_False by done. by destruct self.
Qed.

Lemma set_secure_value_eq self w k v :
  set_secure_value k v (self, w)
  = (Returns tt,
     ({| name := name self; _cached_value := Some (length (heap w)) |},
      {| heap := heap w ++ [<[k := v]> (hash_of w (name self))];
         db := <[name self := <[k := v]> (hash_of w (name self))]> (db w);
         calls := calls w ++ [HGETALL (name self);
                              HSET (name self) (<[k := v]> (hash_of w (name self)))] |})).
Proof.
  unfold set_secure_value. unfold bind at 1. rewrite _load_eq.
  unfold bind at 1. rewrite (_secret_value_cached _ _ (length (heap w))) by done.
  unfold bind at 1. unfold dict_setitem, bind at 1, get_world, put_world.
  simpl. rewrite deref_new, store_new.
  erewrite _save_nonempty; [| reflexivity | rewrite deref_new; apply insert_nonempty].
  rewrite deref_new. cbn [name heap db calls].
  unfold hash_of at 3; cbn [db]. fold (hash_of w (name self)).
  rewrite insert_union_self. by rewrite <- app_assoc.
Qed.

Lemma secret_view_loaded self w :
  _cached_value self = None ->
  secret_view (loaded self w).1 (loaded self w).2 = secret_view self w.
Proof.
  intros Hc. unfold secret_view at 2. rewrite Hc.
  unfold loaded, secret_view; simpl. apply deref_new.
Qed.

Lemma get_secure_value_cached self w l k d :
  _cached_value self = Some l ->
  get_secure_value k d (self, w)
  = (Returns (match deref w l !! k with Some v => VStr v | None => d end),
     (self, w)).
Proof.
  intros Hc. unfold get_secure_value, bind at 1.
  by rewrite (_secret_value_cached _ _ l).
Qed.

Lemma get_secure_value_uncached self w k d :
  _cached_value self = None ->
  get_secure_value k d (self, w)
  = (Returns (match hash_of w (name self) !! k with
              | Some v => VStr v | None => d end),
     loaded self w).
Proof.
  intros Hc. unfold get_secure_value, bind at 1.
  rewrite _secret_value_uncached by done.
  unfold dict_get, bind, get_world, ret. by rewrite deref_new.
Qed.

Lemma clear_value_uncached self w k :
  _cached_value self = None ->
  clear_value k (self, w) = clear_value k (loaded self w).
Proof.
  intros Hc. unfold loaded, clear_value, bind at 1. symmetry. unfold bind at 1.
  rewrite (_secret_value_uncached self w) by done.
  by rewrite (_secret_value_cached _ _ (length (heap w))).
Qed.

Lemma clear_value_absent_cached self w l k :
  _cached_value self = Some l -> deref w l !! k = None ->
  clear_value k (self, w) = (Returns tt, (self, w)).
Proof.
  intros Hc Hk. unfold clear_value.
  rewrite (bind_Returns _ _ _ _ _ (_secret_value_cached _ _ l Hc)).
  rewrite (bind_Returns _ _ _ _ _ (dict_contains_eq _ _ _ _)).
  rewrite Hk. by rewrite bool_decide_false by (intros [? ?]; done).
Qed.

(** After the membership test succeeded: the key is popped from the cached
    dict, then [_save] runs on the result. *)
Lemma clear_value_present_cached self w l k v :
  _cached_value self = Some l -> deref w l !! k = Some v ->
  clear_value k (self, w)
  = _save (self, store l (delete k (deref w l)) w).
Proof.
  intros Hc Hk. unfold clear_value.
  rewrite (bind_Returns _ _ _ _ _ (_secret_value_cached _ _ l Hc)).
  rewrite (bind_Returns _ _ _ _ _ (dict_contains_eq _ _ _ _)).
  rewrite bool_decide_true by (rewrite Hk; eauto). change (negb true) with false. cbv iota.
  rewrite (bind_Returns _ _ _ _ _ (_secret_value_cached _ _ l Hc)).
  by rewrite (bind_Returns _ _ _ _ _ (dict_pop_Some _ _ _ _ _ Hk)).
Qed.

Lemma lookup_Some_lt w l k v :
  deref w l !! k = Some v -> l < length (heap w).
Proof.
  intros Hk. apply deref_nonempty_lt. intros He. by rewrite He in Hk.
Qed.

(** Removing a key that is not the last one: the pop reaches the cached dict
    and [hset] merges what is left into the hash. *)
Lemma clear_value_present_eq self w l k v :
  _cached_value self = Some l -> deref w l !! k = Some v ->
  delete k (deref w l) ≠ ∅ ->
  clear_value k (self, w)
  = (Returns tt,
     (self, {| heap := <[l := delete k (deref w l)]> (heap w);
               db := <[name self := delete k (deref w l) ∪ hash_of w (name self)]> (db w);
               calls := calls w ++ [HSET (name self) (delete k (deref w l))] |})).
Proof.
  intros Hc Hk Hne. rewrite (clear_value_present_cached _ _ l k v) by done.
  pose proof (lookup_Some_lt _ _ _ _ Hk) as Hl.
  rewrite (_save_nonempty _ _ l) by (by rewrite ?deref_store_eq).
  by rewrite deref_store_eq.
Qed.

(** Removing the last key: the pop empties the cached dict and [hset]
    refuses the empty mapping. *)
Lemma clear_value_last_eq self w l k v :
  _cached_value self = Some l -> deref w l !! k = Some v ->
  delete k (deref w l) = ∅ ->
  clear_value k (self, w)
  = (Raises (DataError "'hset' with no key value pairs"),
     (self, {| heap := <[l := ∅]> (heap w); db := db w;
               calls := calls w ++ [HSET (name self) ∅] |})).
Proof.
  intros Hc Hk He. rewrite (clear_value_present_cached _ _ l k v) by done.
  pose proof (lookup_Some_lt _ _ _ _ Hk) as Hl.
  rewrite (_save_empty _ _ l) by (by rewrite ?deref_store_eq).
  by rewrite He.
Qed.

Lemma keys_cached self w l :
  _cached_value self = Some l ->
  keys (self, w) = (Returns (mkKeysView l), (self, w)).
Proof.
  intros Hc. unfold keys, bind. by rewrite (_secret_value_cached _ _ l).
Qed.

Lemma keys_uncached self w :
  _cached_value self = None ->
  keys (self, w) = (Returns (mkKeysView (length (heap w))), loaded self w).
Proof.
  intros Hc. unfold keys, bind. by rewrite _secret_value_uncached.
Qed.

Lemma items_cached self w l :
  _cached_value self = Some l ->
  items (self, w) = (Returns (mkItemsView l), (self, w)).
Proof.
  intros Hc. unfold items, bind. by rewrite (_secret_value_cached _ _ l).
Qed.

Lemma items_uncached self w :
  _cached_value self = None ->
  items (self, w) = (Returns (mkItemsView (length (heap w))), loaded self w).
Proof.
  intros Hc. unfold items, bind. by rewrite _secret_value_uncached.
Qed.

Lemma hset_calls_loaded self w :
  hset_calls (loaded self w).2 = hset_calls w.
Proof.
  unfold hset_calls, loaded; simpl.
  rewrite List.filter_app; simpl. apply app_nil_r.
Qed.

(** ** The cache always points at an allocated dict *)

Lemma wf___init__ n w : wf (__init__ n) w.
Proof. exact I. Qed.

Lemma wf_loaded self w : wf (loaded self w).1 (loaded self w).2.
Proof. unfold wf, loaded; simpl. rewrite length_app; simpl. lia. Qed.

Lemma wf_get_secure_value self w k d :
  wf self w ->
  let '(_, (self', w')) := get_secure_value k d (self, w) in wf self' w'.
Proof.
  intros Hwf. destruct (_cached_value self) as [l|] eqn:Hc.
  - by rewrite (get_secure_value_cached _ _ l).
  - rewrite get_secure_value_uncached by done. apply wf_loaded.
Qed.

Lemma wf_set_secure_value self w k v :
  let '(_, (self', w')) := set_secure_value k v (self, w) in wf self' w'.
Proof.
  rewrite set_secure_value_eq. unfold wf; simpl.
  rewrite length_app; simpl. lia.
Qed.

(** * The claims *)

(** ** Reload before write *)

(** C1.  Delegate A has loaded the record (here through a read), a second
    writer B on the same record name then sets [kb := vb], and A then calls
    [set_secure_value kc vc].  The call returns and the record on the server
    is the record as B left it plus the new entry: B's entry is kept, because
    A's set starts from a fresh load and not from the dict A had cached.  In
    the spec's scenario: [{a:1}], then [b:2], then [c:3], gives
    [{a:1,b:2,c:3}]. *)
Theorem set_secure_value_keeps_concurrent_write
    (A B : RedisStorageDelegate) (w0 : World) (k0 : string) (d0 : value)
    (kb vb kc vc : string) :
  name B = name A ->
  let '(_, (A1, w1)) := get_secure_value k0 d0 (A, w0) in
  let '(_, (_, w2)) := set_secure_value kb vb (B, w1) in
  let '(r, (A2, w3)) := set_secure_value kc vc (A1, w2) in
  r = Returns tt
  ∧ hash_of w2 (name A) = <[kb := vb]> (hash_of w0 (name A))
  ∧ hash_of w3 (name A) = <[kc := vc]> (<[kb := vb]> (hash_of w0 (name A)))
  ∧ secret_view A2 w3 = hash_of w3 (name A).
Proof.
  intros HB.
  assert (Hget : ∃ r1 A1 w1, get_secure_value k0 d0 (A, w0) = (r1, (A1, w1))
                 ∧ name A1 = name A ∧ db w1 = db w0).
  { destruct (_cached_value A) as [l|] eqn:Hc.
    - rewrite (get_secure_value_cached _ _ l) by done. eauto 10.
    - rewrite get_secure_value_uncached by done. unfold loaded. eauto 10. }
  destruct Hget as (r1 & A1 & w1 & -> & HA1 & Hdb1).
  rewrite !set_secure_value_eq. rewrite HB, HA1.
  assert (Hh : hash_of w1 (name A) = hash_of w0 (name A))
    by (unfold hash_of; by rewrite Hdb1).
  rewrite !hash_of_insert, Hh. repeat split; try done.
  unfold secret_view; simpl. apply deref_new.
Qed.

Lemma set_secure_value_keeps_concurrent_write_witness :
  name delegate_B = name delegate_A
  ∧ (let '(_, (A1, w1)) := get_secure_value "a" VNone (delegate_A, world_a1) in
     let '(_, (_, w2)) := set_secure_value "b" "2" (delegate_B, w1) in
     let '(r, (A2, w3)) := set_secure_value "c" "3" (A1, w2) in
     r = Returns tt
     ∧ hash_of w2 (name delegate_A)
       = <["b" := "2"]> (hash_of world_a1 (name delegate_A))
     ∧ hash_of w3 (name delegate_A)
       = <["c" := "3"]> (<["b" := "2"]> (hash_of world_a1 (name delegate_A)))
     ∧ secret_view A2 w3 = hash_of w3 (name delegate_A)).
Proof.
  split; [reflexivity|].
  apply (set_secure_value_keeps_concurrent_write
           delegate_A delegate_B world_a1 "a" VNone "b" "2" "c" "3").
  reflexivity.
Defined.

(** ** Round trip *)

(** C7.  [set_secure_value k v] followed by [get_secure_value k] on the same
    delegate returns [v], whatever the delegate had cached before, whatever
    the record held, and whatever default is passed to the read. *)
Theorem get_after_set_secure_value
    (A : RedisStorageDelegate) (w : World) (k v : string) (d : value) :
  let '(r, s1) := set_secure_value k v (A, w) in
  r = Returns tt ∧ (get_secure_value k d s1).1 = Returns (VStr v).
Proof.
  rewrite set_secure_value_eq. split; [done|].
  rewrite (get_secure_value_cached _ _ (length (heap w))) by done.
  rewrite deref_new. by rewrite lookup_insert_eq.
Qed.

(** ** Missing keys *)

(** C8.  When the record as the delegate sees it has no entry for [k],
    [get_secure_value k d] returns [d] and raises nothing.  A delegate that
    had a cached dict is left exactly as it was, and so is the world; a
    delegate without one ends in the state that [_load] produces.  The
    hashes on the server are the same before and after. *)
Theorem get_secure_value_missing_key
    (A : RedisStorageDelegate) (w : World) (k : string) (d : value) :
  secret_view A w !! k = None ->
  let '(r, (A', w')) := get_secure_value k d (A, w) in
  r = Returns d
  ∧ db w' = db w
  ∧ secret_view A' w' = secret_view A w
  ∧ match _cached_value A with
    | Some _ => (A', w') = (A, w)
    | None => _load (A, w) = (Returns tt, (A', w'))
    end.
Proof.
  intros Hk. destruct (_cached_value A) as [l|] eqn:Hc.
  - rewrite (get_secure_value_cached _ _ l) by done.
    unfold secret_view in Hk. rewrite Hc in Hk. by rewrite Hk.
  - rewrite get_secure_value_uncached by done.
    pose proof (secret_view_loaded A w Hc) as Hv.
    unfold secret_view in Hk. rewrite Hc in Hk. rewrite Hk.
    unfold loaded in *. by rewrite _load_eq.
Qed.

Lemma get_secure_value_missing_key_witness :
  secret_view delegate_A world_a1 !! "zz" = None
  ∧ (let '(r, (A', w')) :=
       get_secure_value "zz" (VStr "fallback") (delegate_A, world_a1) in
     r = Returns (VStr "fallback")
     ∧ db w' = db world_a1
     ∧ secret_view A' w' = secret_view delegate_A world_a1
     ∧ match _cached_value delegate_A with
       | Some _ => (A', w') = (delegate_A, world_a1)
       | None => _load (delegate_A, world_a1) = (Returns tt, (A', w'))
       end).
Proof.
  split; [reflexivity|].
  apply (get_secure_value_missing_key delegate_A world_a1 "zz" (VStr "fallback")).
  reflexivity.
Defined.

(** C9.  When the record as the delegate sees it has no entry for [k],
    [clear_value k] returns without an error; the hashes on the server and
    the record as the delegate sees it are unchanged, and no [HSET] is
    issued.  The only possible effect is the lazy load of an uncached
    delegate. *)
Theorem clear_value_absent_key
    (A : RedisStorageDelegate) (w : World) (k : string) :
  secret_view A w !! k = None ->
  let '(r, (A', w')) := clear_value k (A, w) in
  r = Returns tt
  ∧ db w' = db w
  ∧ secret_view A' w' = secret_view A w
  ∧ hset_calls w' = hset_calls w
  ∧ match _cached_value A with
    | Some _ => (A', w') = (A, w)
    | None => _load (A, w) = (Returns tt, (A', w'))
    end.
Proof.
  intros Hk. destruct (_cached_value A) as [l|] eqn:Hc.
  - rewrite (clear_value_absent_cached _ _ l) by
      (try done; unfold secret_view in Hk; by rewrite Hc in Hk).
    done.
  - rewrite clear_value_uncached by done.
    pose proof (secret_view_loaded A w Hc) as Hv.
    pose proof (hset_calls_loaded A w) as Hh.
    unfold loaded in *. simpl in Hv, Hh.
    rewrite (clear_value_absent_cached _ _ (length (heap w))); [| done |].
    + by rewrite _load_eq.
    + unfold secret_view in Hv at 1. simpl in Hv. by rewrite Hv.
Qed.

Lemma clear_value_absent_key_witness :
  secret_view delegate_A world_a1 !! "zz" = None
  ∧ (let '(r, (A', w')) := clear_value "zz" (delegate_A, world_a1) in
     r = Returns tt
     ∧ db w' = db world_a1
     ∧ secret_view A' w' = secret_view delegate_A world_a1
     ∧ hset_calls w' = hset_calls world_a1
     ∧ match _cached_value delegate_A with
       | Some _ => (A', w') = (delegate_A, world_a1)
       | None => _load (delegate_A, world_a1) = (Returns tt, (A', w'))
       end).
Proof.
  split; [reflexivity|].
  apply (clear_value_absent_key delegate_A world_a1 "zz").
  reflexivity.
Defined.

(** ** Deleting the last key *)

Lemma clear_value_last_cached self w l k v :
  _cached_value self = Some l -> deref w l = {[ k := v ]} ->
  let '(r, (self', w')) := clear_value k (self, w) in
  r = Raises (DataError "'hset' with no key value pairs")
  ∧ self' = self
  ∧ deref w' l = ∅
  ∧ db w' = db w
  ∧ calls w' = calls w ++ [HSET (name self) ∅].
Proof.
  intros Hc Hd.
  assert (Hk : deref w l !! k = Some v) by (rewrite Hd; apply lookup_singleton_eq).
  rewrite (clear_value_last_eq _ _ l k v); [| done | done |].
  - repeat split; try done.
    unfold deref; simpl. rewrite list_lookup_insert_eq; [done|].
    by eapply lookup_Some_lt.
  - rewrite Hd. apply delete_singleton_eq.
Qed.

(** C10.  When the record as the delegate sees it holds exactly the key [k],
    [clear_value k] pops it, so that the cached dict is empty, calls [hset]
    with the empty mapping, and the call is rejected: [clear_value] raises
    the client's [DataError] and the hashes on the server are untouched. *)
Theorem clear_value_last_key_raises
    (A : RedisStorageDelegate) (w : World) (k v : string) :
  secret_view A w = {[ k := v ]} ->
  let '(r, (A', w')) := clear_value k (A, w) in
  r = Raises (DataError "'hset' with no key value pairs")
  ∧ secret_view A' w' = ∅
  ∧ last (calls w') = Some (HSET (name A) ∅)
  ∧ db w' = db w.
Proof.
  intros Hv. destruct (_cached_value A) as [l|] eqn:Hc.
  - unfold secret_view in Hv. rewrite Hc in Hv.
    pose proof (clear_value_last_cached A w l k v Hc Hv) as H.
    destruct (clear_value k (A, w)) as [r [A' w']].
    destruct H as (-> & -> & Hd & Hdb & Hcs).
    repeat split; try done.
    + unfold secret_view. by rewrite Hc.
    + rewrite Hcs. apply last_snoc.
  - rewrite clear_value_uncached by done.
    pose proof (secret_view_loaded A w Hc) as Hl. rewrite Hv in Hl.
    unfold loaded in *. unfold secret_view in Hl at 1. simpl in Hl.
    pose proof (clear_value_last_cached
                  {| name := name A; _cached_value := Some (length (heap w)) |}
                  _ _ k v eq_refl Hl) as H.
    match goal with |- context [clear_value k ?s] =>
      destruct (clear_value k s) as [r [A' w']] end.
    destruct H as (-> & -> & Hd & Hdb & Hcs).
    repeat split; try done. rewrite Hcs. apply last_snoc.
Qed.

Lemma clear_value_last_key_raises_witness :
  secret_view delegate_A world_a1 = {[ "a" := "1" ]}
  ∧ (let '(r, (A', w')) := clear_value "a" (delegate_A, world_a1) in
     r = Raises (DataError "'hset' with no key value pairs")
     ∧ secret_view A' w' = ∅
     ∧ last (calls w') = Some (HSET (name delegate_A) ∅)
     ∧ db w' = db world_a1).
Proof.
  split; [reflexivity|].
  apply (clear_value_last_key_raises delegate_A world_a1 "a" "1").
  reflexivity.
Defined.

(** ** [clear_all_values] *)

(** C5.  [clear_all_values] is declared without [self], so a call through a
    delegate instance fails while binding the arguments: it raises
    [TypeError], and the body that raises
    [NotImplementedError "Clear all values not allowed"] is not reached.
    Neither the delegate nor the world changes. *)
Theorem clear_all_values_raises_TypeError (A : RedisStorageDelegate) (w : World) :
  clear_all_values (A, w) = (Raises TypeError, (A, w))
  ∧ clear_all_values_function (A, w)
    = (Raises (NotImplementedError "Clear all values not allowed"), (A, w)).
Proof. split; reflexivity. Qed.

(** ** Deleting a key that is present *)

(** What [clear_value] does for a delegate without a cache when the key is
    on the server and is not the only one: the cached dict loses the key,
    and the hash on the server is the one it was, the key included. *)
Lemma clear_value_present_fresh (A : RedisStorageDelegate) (w : World) (k v : string) :
  _cached_value A = None ->
  hash_of w (name A) !! k = Some v ->
  delete k (hash_of w (name A)) ≠ ∅ ->
  let '(r, (A', w')) := clear_value k (A, w) in
  r = Returns tt
  ∧ secret_view A' w' = delete k (hash_of w (name A))
  ∧ hash_of w' (name A) = hash_of w (name A).
Proof.
  intros Hc Hk Hne. rewrite clear_value_uncached by done. unfold loaded.
  rewrite (clear_value_present_eq _ _ (length (heap w)) k v);
    [| done | by rewrite deref_new | by rewrite deref_new].
  rewrite deref_new. repeat split.
  - unfold secret_view, deref; simpl.
    rewrite insert_app_r_alt by lia. rewrite Nat.sub_diag. simpl.
    by rewrite list_lookup_middle.
  - simpl. rewrite hash_of_insert.
    unfold hash_of at 1; simpl. fold (hash_of w (name A)).
    apply map_subseteq_union, delete_subseteq.
Qed.

(** C3.  A delegate without a cache clears ["a"] from the record
    [{a:1, b:2}].  The call returns normally and the cached dict is [{b:2}],
    but the hash on the server still is [{a:1, b:2}]: [hset] only sets the
    fields it is given, so the removal never reaches the server. *)
Theorem clear_value_leaves_field_on_server :
  let '(r, (A', w')) := clear_value "a" (delegate_A, world_a1_b2) in
  r = Returns tt
  ∧ secret_view A' w' = {[ "b" := "2" ]}
  ∧ calls w' = [HGETALL (name delegate_A); HSET (name delegate_A) {[ "b" := "2" ]}]
  ∧ hash_of w' (name delegate_A) = rec_a1_b2
  ∧ hash_of w' (name delegate_A) !! "a" = Some "1".
Proof. vm_compute. repeat split. Qed.

(** ** Stale cache on delete *)

(** C2.  Delegate A reads the record [{a:1, b:2}] and so caches it; a second
    writer sets ["a"] to ["5"]; A then clears ["b"].  [clear_value] goes
    through the cached dict without a reload: the only call it makes is an
    [HSET] of the stale [{a:1}], which puts ["a"] back to ["1"] on the server
    (and leaves ["b"] there). *)
Theorem clear_value_writes_back_stale_cache :
  let '(_, (A1, w1)) := get_secure_value "a" VNone (delegate_A, world_a1_b2) in
  let '(_, (_, w2)) := set_secure_value "a" "5" (delegate_B, w1) in
  let '(r, (A2, w3)) := clear_value "b" (A1, w2) in
  r = Returns tt
  ∧ hash_of w2 (name delegate_A) = <[ "a" := "5" ]> rec_a1_b2
  ∧ calls w3 = calls w2 ++ [HSET (name delegate_A) {[ "a" := "1" ]}]
  ∧ hash_of w3 (name delegate_A) = rec_a1_b2
  ∧ hash_of w3 (name delegate_A) !! "a" = Some "1".
Proof. vm_compute. repeat split. Qed.

(** ** The persist step *)

(** After [set_secure_value] the record on the server and the cached dict
    are the same map: the reload made the cache hold every field of the
    record before the [HSET]. *)
Lemma set_secure_value_record_is_cache
    (A : RedisStorageDelegate) (w : World) (k v : string) :
  let '(_, (A', w')) := set_secure_value k v (A, w) in
  hash_of w' (name A') = secret_view A' w'.
Proof.
  rewrite set_secure_value_eq. cbn [name]. rewrite hash_of_insert.
  unfold secret_view; cbn [_cached_value]. by rewrite deref_new.
Qed.

(** With a non-empty cached dict [m], [_save] returns after a single [HSET]
    that carries the whole of [m]; the delegate and the dict objects are
    unchanged.  Afterwards every field of [m] is in the hash with its value
    from [m], and the hash is exactly [m] when it had no field outside [m]
    before the call. *)
Lemma _save_writes_every_cached_field
    (A : RedisStorageDelegate) (w : World) (l : loc) :
  _cached_value A = Some l ->
  deref w l ≠ ∅ ->
  let '(r, (A', w')) := _save (A, w) in
  r = Returns tt
  ∧ A' = A ∧ heap w' = heap w
  ∧ calls w' = calls w ++ [HSET (name A) (deref w l)]
  ∧ (∀ k v, deref w l !! k = Some v -> hash_of w' (name A) !! k = Some v)
  ∧ (dom (hash_of w (name A)) ⊆ dom (deref w l) ->
     hash_of w' (name A) = deref w l).
Proof.
  intros Hc Hne. rewrite (_save_nonempty _ _ l) by done.
  rewrite hash_of_insert. repeat split; try done.
  - intros k v Hk. by apply lookup_union_Some_l.
  - intros Hd. apply map_eq. intros k.
    destruct (deref w l !! k) as [v'|] eqn:E.
    + by apply lookup_union_Some_l.
    + rewrite lookup_union_r by done. apply not_elem_of_dom.
      intros Hk. apply Hd in Hk. by apply not_elem_of_dom in E.
Qed.

(** C4.  The persist step does not overwrite the record, and so does not
    persist a removal.  A delegate loads the record [{a:1, b:2}] and clears
    ["b"]: [clear_value] pops the key and hands the cached [{a:1}] to
    [_save].  [_save] returns after an [HSET] of [{a:1}], and afterwards the
    record on the server still is [{a:1, b:2}]: it is not the cached dict,
    the field ["b"] has survived. *)
Theorem _save_does_not_persist_removal :
  let '(_, (A1, w1)) := get_secure_value "b" VNone (delegate_A, world_a1_b2) in
  let popped := store 0 (delete "b" (deref w1 0)) w1 in
  clear_value "b" (A1, w1) = _save (A1, popped)
  ∧ secret_view A1 popped = rec_a1
  ∧ (let '(r, (A2, w2)) := _save (A1, popped) in
     r = Returns tt
     ∧ calls w2 = calls popped ++ [HSET (name A1) rec_a1]
     ∧ secret_view A2 w2 = rec_a1
     ∧ hash_of w2 (name A2) = rec_a1_b2
     ∧ hash_of w2 (name A2) !! "b" = Some "2"
     ∧ hash_of w2 (name A2) ≠ secret_view A2 w2).
Proof.
  vm_compute. repeat split. intros H. discriminate H.
Qed.

(** ** Views *)

Lemma _save_frame self w :
  let '(_, (self', w')) := _save (self, w) in
  self' = self ∧ heap w' = heap w.
Proof.
  destruct (_cached_value self) as [l|] eqn:Hc.
  - destruct (decide (deref w l = ∅)) as [He|Hne].
    + by rewrite (_save_empty _ _ l).
    + by rewrite (_save_nonempty _ _ l).
  - by rewrite _save_uncached.
Qed.

(** [clear_value] keeps the cached object and changes it in place. *)
Lemma clear_value_in_place self w l k :
  _cached_value self = Some l -> l < length (heap w) ->
  let '(_, (self', w')) := clear_value k (self, w) in
  _cached_value self' = Some l
  ∧ length (heap w') = length (heap w)
  ∧ deref w' l = delete k (deref w l).
Proof.
  intros Hc Hl. destruct (deref w l !! k) as [v|] eqn:Hk.
  - rewrite (clear_value_present_cached _ _ l k v) by done.
    pose proof (_save_frame self (store l (delete k (deref w l)) w)) as H.
    destruct (_save _) as [r [self' w']]. destruct H as [-> Hh].
    split; [done|]. unfold deref at 1. rewrite Hh. simpl.
    rewrite length_insert. split; [done|].
    by rewrite list_lookup_insert_eq.
  - rewrite (clear_value_absent_cached _ _ l) by done.
    by rewrite delete_id.
Qed.

Lemma wf_clear_value self w k :
  wf self w ->
  let '(_, (self', w')) := clear_value k (self, w) in wf self' w'.
Proof.
  intros Hwf. destruct (_cached_value self) as [l|] eqn:Hc.
  - unfold wf in Hwf. rewrite Hc in Hwf.
    pose proof (clear_value_in_place self w l k Hc Hwf) as H.
    destruct (clear_value k (self, w)) as [r [self' w']].
    destruct H as (Hc' & Hlen & _). unfold wf. rewrite Hc'. lia.
  - rewrite clear_value_uncached by done.
    pose proof (wf_loaded self w) as Hl. unfold loaded in *.
    unfold wf in Hl. simpl in Hl.
    pose proof (clear_value_in_place
                  {| name := name self; _cached_value := Some (length (heap w)) |}
                  {| heap := heap w ++ [hash_of w (name self)]; db := db w;
                     calls := calls w ++ [HGETALL (name self)] |}
                  _ k eq_refl Hl) as H.
    match goal with |- context [clear_value k ?s] =>
      destruct (clear_value k s) as [r [self' w']] end.
    destruct H as (Hc' & Hlen & _). unfold wf. rewrite Hc'.
    simpl in Hlen. lia.
Qed.

(** [set_secure_value] rebinds the cache to a new object and leaves every
    dict object that existed before as it was. *)
Lemma set_secure_value_rebinds self w l k v :
  l < length (heap w) ->
  let '(_, (self', w')) := set_secure_value k v (self, w) in
  _cached_value self' ≠ Some l
  ∧ deref w' l = deref w l
  ∧ secret_view self' w' = <[k := v]> (hash_of w (name self)).
Proof.
  intros Hl. rewrite set_secure_value_eq. repeat split.
  - simpl. intros [= He]. lia.
  - unfold deref; simpl. by rewrite lookup_app_l.
  - unfold secret_view; simpl. apply deref_new.
Qed.

(** The object that [keys()] and [items()] wrap. *)
Lemma views_wrap_cache self w :
  wf self w ->
  ∃ l self1 w1,
    keys (self, w) = (Returns (mkKeysView l), (self1, w1))
    ∧ items (self, w) = (Returns (mkItemsView l), (self1, w1))
    ∧ _cached_value self1 = Some l
    ∧ l < length (heap w1)
    ∧ deref w1 l = secret_view self w
    ∧ name self1 = name self ∧ db w1 = db w.
Proof.
  intros Hwf. unfold wf in Hwf. destruct (_cached_value self) as [l|] eqn:Hc.
  - exists l, self, w. rewrite (keys_cached _ _ l), (items_cached _ _ l) by done.
    unfold secret_view. by rewrite Hc.
  - exists (length (heap w)),
      {| name := name self; _cached_value := Some (length (heap w)) |},
      {| heap := heap w ++ [hash_of w (name self)]; db := db w;
         calls := calls w ++ [HGETALL (name self)] |}.
    rewrite keys_uncached, items_uncached by done.
    repeat split; try done.
    + simpl. rewrite length_app. simpl. lia.
    + unfold secret_view. rewrite Hc. apply deref_new.
Qed.

Lemma clear_values_in_place ks : ∀ self w l,
  _cached_value self = Some l -> l < length (heap w) ->
  _cached_value (clear_values ks (self, w)).1 = Some l
  ∧ deref (clear_values ks (self, w)).2 l
    = foldl (fun m k => delete k m) (deref w l) ks.
Proof.
  induction ks as [|k ks IH]; intros self w l Hc Hl; [done|].
  pose proof (clear_value_in_place self w l k Hc Hl) as H.
  cbn [clear_values foldl].
  destruct (clear_value k (self, w)) as [r [self' w']].
  destruct H as (Hc' & Hlen & Hd). cbn [snd].
  rewrite <- Hd. apply IH; [done | lia].
Qed.

(** C6, as stated, fails: a delegate over the record [{a:1}] hands out a key
    view, then sets ["b"].  The cache now is [{a:1, b:2}], but the view still
    enumerates only ["a"]: [set_secure_value] loaded a new dict, and the view
    holds the old one. *)
Lemma keys_view_misses_later_set :
  let '(rv, (A1, w1)) := keys (delegate_A, world_a1) in
  let '(_, (A2, w2)) := set_secure_value "b" "2" (A1, w1) in
  ∃ v, rv = Returns v
       ∧ secret_view A2 w2 = rec_a1_b2
       ∧ enumerate_keys w2 v = ["a"]
       ∧ enumerate_keys w2 v ≠ (map_to_list (secret_view A2 w2)).*1.
Proof.
  vm_compute. eexists. split; [reflexivity|]. repeat split.
  intros H. discriminate H.
Qed.

(** C6, amended.  [keys()] and [items()] load the record if nothing is
    cached and return views of the cached dict object; both enumerate the
    record as the delegate sees it.  The views are live for changes made in
    place: after any run of [clear_value] calls they enumerate the cache as
    it then is, which is the earlier cache without the cleared keys.  A
    later [set_secure_value] binds the cache to a newly loaded dict, and the
    earlier views keep enumerating the dict they were taken from. *)
Theorem views_follow_the_cached_object (A : RedisStorageDelegate) (w : World) :
  wf A w ->
  ∃ l A1 w1,
    keys (A, w) = (Returns (mkKeysView l), (A1, w1))
    ∧ items (A, w) = (Returns (mkItemsView l), (A1, w1))
    ∧ enumerate_keys w1 (mkKeysView l) = (map_to_list (secret_view A w)).*1
    ∧ enumerate_items w1 (mkItemsView l) = map_to_list (secret_view A w)
    ∧ (∀ ks, let '(A2, w2) := clear_values ks (A1, w1) in
         secret_view A2 w2 = foldl (fun m k => delete k m) (secret_view A w) ks
         ∧ enumerate_keys w2 (mkKeysView l) = (map_to_list (secret_view A2 w2)).*1
         ∧ enumerate_items w2 (mkItemsView l) = map_to_list (secret_view A2 w2))
    ∧ (∀ k x, let '(_, (A2, w2)) := set_secure_value k x (A1, w1) in
         secret_view A2 w2 = <[k := x]> (hash_of w (name A))
         ∧ enumerate_keys w2 (mkKeysView l) = (map_to_list (secret_view A w)).*1
         ∧ enumerate_items w2 (mkItemsView l) = map_to_list (secret_view A w)).
Proof.
  intros Hwf.
  destruct (views_wrap_cache A w Hwf)
    as (l & A1 & w1 & Hk & Hi & Hc & Hl & Hd & Hn & Hdb).
  exists l, A1, w1. unfold enumerate_keys, enumerate_items; simpl.
  rewrite Hd. repeat split; try done.
  - intros ks. pose proof (clear_values_in_place ks A1 w1 l Hc Hl) as [Hc2 Hd2].
    destruct (clear_values ks (A1, w1)) as [A2 w2]. simpl in Hc2, Hd2.
    unfold secret_view. rewrite Hc2, Hd2, Hd. done.
  - intros k x. pose proof (set_secure_value_rebinds A1 w1 l k x Hl) as H.
    destruct (set_secure_value k x (A1, w1)) as [r [A2 w2]].
    destruct H as (_ & Hd2 & Hv). rewrite Hd2, Hd, Hv.
    unfold hash_of. by rewrite Hn, Hdb.
Qed.

Lemma views_follow_the_cached_object_witness :
  wf delegate_cached world_cached_a1
  ∧ ∃ l A1 w1,
    keys (delegate_cached, world_cached_a1) = (Returns (mkKeysView l), (A1, w1))
    ∧ items (delegate_cached, world_cached_a1) = (Returns (mkItemsView l), (A1, w1))
    ∧ enumerate_keys w1 (mkKeysView l)
      = (map_to_list (secret_view delegate_cached world_cached_a1)).*1
    ∧ enumerate_items w1 (mkItemsView l)
      = map_to_list (secret_view delegate_cached world_cached_a1)
    ∧ (∀ ks, let '(A2, w2) := clear_values ks (A1, w1) in
         secret_view A2 w2
         = foldl (fun m k => delete k m) (secret_view delegate_cached world_cached_a1) ks
         ∧ enumerate_keys w2 (mkKeysView l) = (map_to_list (secret_view A2 w2)).*1
         ∧ enumerate_items w2 (mkItemsView l) = map_to_list (secret_view A2 w2))
    ∧ (∀ k x, let '(_, (A2, w2)) := set_secure_value k x (A1, w1) in
         secret_view A2 w2
         = <[k := x]> (hash_of world_cached_a1 (name delegate_cached))
         ∧ enumerate_keys w2 (mkKeysView l)
           = (map_to_list (secret_view delegate_cached world_cached_a1)).*1
         ∧ enumerate_items w2 (mkItemsView l)
           = map_to_list (secret_view delegate_cached world_cached_a1)).
Proof.
  assert (Hwf : wf delegate_cached world_cached_a1) by (unfold wf; simpl; lia).
  split; [exact Hwf|].
  apply (views_follow_the_cached_object delegate_cached world_cached_a1 Hwf).
Defined.

(** * Further properties of the delegate *)

(** ** What a write touches *)

(** X1.  [set_secure_value k v] makes exactly two calls on the client, an
    [HGETALL] followed by an [HSET] of the reloaded record with [k := v].
    Every other field of the record keeps its value, the hashes under other
    names are untouched, and so is every dict object that existed before
    the call. *)
Theorem set_secure_value_frame
    (A : RedisStorageDelegate) (w : World) (k v : string) :
  let '(r, (A', w')) := set_secure_value k v (A, w) in
  r = Returns tt
  ∧ name A' = name A
  ∧ calls w' = calls w ++ [HGETALL (name A);
                           HSET (name A) (<[k := v]> (hash_of w (name A)))]
  ∧ (∀ k', k' ≠ k -> hash_of w' (name A) !! k' = hash_of w (name A) !! k')
  ∧ (∀ n, n ≠ name A -> db w' !! n = db w !! n)
  ∧ (∀ l, l < length (heap w) -> deref w' l = deref w l).
Proof.
  rewrite set_secure_value_eq. repeat split; try done.
  - intros k' Hk. rewrite hash_of_insert. by rewrite lookup_insert_ne.
  - intros n Hn. simpl. by rewrite lookup_insert_ne.
  - intros l Hl. unfold deref; simpl. by rewrite lookup_app_l.
Qed.

(** X2.  Two writes in a row by one delegate leave the record with both
    entries, the second on top of the first: on the same key the last value
    wins, and writing the same entry twice is the same as writing it
    once. *)
Theorem set_secure_value_twice
    (A : RedisStorageDelegate) (w : World) (k1 v1 k2 v2 : string) :
  let '(_, (A1, w1)) := set_secure_value k1 v1 (A, w) in
  let '(r, (A2, w2)) := set_secure_value k2 v2 (A1, w1) in
  r = Returns tt
  ∧ hash_of w2 (name A) = <[k2 := v2]> (<[k1 := v1]> (hash_of w (name A)))
  ∧ (k1 = k2 -> hash_of w2 (name A) = <[k2 := v2]> (hash_of w (name A)))
  ∧ (k1 = k2 -> v1 = v2 -> db w2 = db w1).
Proof.
  rewrite !set_secure_value_eq. cbn [name]. rewrite !hash_of_insert.
  repeat split.
  - intros ->. by rewrite insert_insert_eq.
  - intros -> ->. simpl. by rewrite !insert_insert_eq.
Qed.

Lemma set_secure_value_twice_witness :
  let '(_, (A1, w1)) := set_secure_value "a" "7" (delegate_A, world_a1_b2) in
  let '(r, (A2, w2)) := set_secure_value "a" "7" (A1, w1) in
  r = Returns tt
  ∧ hash_of w2 (name delegate_A)
    = <["a" := "7"]> (<["a" := "7"]> (hash_of world_a1_b2 (name delegate_A)))
  ∧ ("a" = "a" -> hash_of w2 (name delegate_A)
                 = <["a" := "7"]> (hash_of world_a1_b2 (name delegate_A)))
  ∧ ("a" = "a" -> "7" = "7" -> db w2 = db w1).
Proof.
  apply (set_secure_value_twice delegate_A world_a1_b2 "a" "7" "a" "7").
Defined.

(** X3.  Writes to two different keys commute: the hashes on the server are
    the same whichever of the two writes is made first. *)
Theorem set_secure_value_commute
    (A : RedisStorageDelegate) (w : World) (k1 v1 k2 v2 : string) :
  k1 ≠ k2 ->
  db (set_secure_value k2 v2 (set_secure_value k1 v1 (A, w)).2).2.2
  = db (set_secure_value k1 v1 (set_secure_value k2 v2 (A, w)).2).2.2.
Proof.
  intros Hne. rewrite !set_secure_value_eq. cbn [snd name].
  rewrite !set_secure_value_eq. cbn [snd db name].
  rewrite !hash_of_insert. rewrite !insert_insert_eq.
  by rewrite insert_insert_ne.
Qed.

Lemma set_secure_value_commute_witness :
  "a" ≠ "b"
  ∧ db (set_secure_value "b" "2"
          (set_secure_value "a" "1" (delegate_A, world_a1)).2).2.2
    = db (set_secure_value "a" "1"
            (set_secure_value "b" "2" (delegate_A, world_a1)).2).2.2.
Proof.
  assert (Hne : "a" ≠ "b") by (intros H; discriminate H).
  split; [exact Hne|].
  apply (set_secure_value_commute delegate_A world_a1 "a" "1" "b" "2" Hne).
Defined.

(** ** What a read sees *)

(** X4.  A delegate that has loaded the record keeps answering from its
    cached dict: after another writer on the same record has set [k], a read
    of [k] through the first delegate still gives what the record held when
    it was loaded, and makes no call on the client. *)
Theorem get_secure_value_reads_stale_cache
    (A B : RedisStorageDelegate) (w0 : World) (k0 k v' : string) (d0 d : value) :
  _cached_value A = None ->
  name B = name A ->
  let '(_, (A1, w1)) := get_secure_value k0 d0 (A, w0) in
  let '(_, (_, w2)) := set_secure_value k v' (B, w1) in
  let '(r, (A2, w3)) := get_secure_value k d (A1, w2) in
  r = Returns (match hash_of w0 (name A) !! k with
               | Some v => VStr v | None => d end)
  ∧ hash_of w2 (name A) !! k = Some v'
  ∧ w3 = w2.
Proof.
  intros Hc HB. rewrite get_secure_value_uncached by done. unfold loaded.
  rewrite set_secure_value_eq. rewrite HB.
  rewrite (get_secure_value_cached _ _ (length (heap w0))) by done.
  repeat split.
  - f_equal. unfold deref; simpl.
    rewrite lookup_app_l by (rewrite length_app; simpl; lia).
    by rewrite list_lookup_middle.
  - rewrite hash_of_insert. apply lookup_insert_eq.
Qed.

Lemma get_secure_value_reads_stale_cache_witness :
  _cached_value delegate_A = None
  ∧ name delegate_B = name delegate_A
  ∧ (let '(_, (A1, w1)) := get_secure_value "b" VNone (delegate_A, world_a1) in
     let '(_, (_, w2)) := set_secure_value "a" "5" (delegate_B, w1) in
     let '(r, (A2, w3)) := get_secure_value "a" VNone (A1, w2) in
     r = Returns (match hash_of world_a1 (name delegate_A) !! "a" with
                  | Some v => VStr v | None => VNone end)
     ∧ hash_of w2 (name delegate_A) !! "a" = Some "5"
     ∧ w3 = w2).
Proof.
  split; [reflexivity|]. split; [reflexivity|].
  apply (get_secure_value_reads_stale_cache
           delegate_A delegate_B world_a1 "b" "a" "5" VNone VNone);
    reflexivity.
Defined.

(** X5.  What one delegate has written, a delegate created afterwards on the
    same record name reads back: its first read loads the record with a
    single [HGETALL] and returns the written value. *)
Theorem get_secure_value_sees_earlier_write
    (A B : RedisStorageDelegate) (w : World) (k v : string) (d : value) :
  _cached_value B = None ->
  name B = name A ->
  let '(_, (_, w1)) := set_secure_value k v (A, w) in
  let '(r, (_, w2)) := get_secure_value k d (B, w1) in
  r = Returns (VStr v)
  ∧ calls w2 = calls w1 ++ [HGETALL (name A)]
  ∧ db w2 = db w1.
Proof.
  intros Hc HB. rewrite set_secure_value_eq.
  rewrite get_secure_value_uncached by done. unfold loaded. rewrite HB.
  rewrite hash_of_insert, lookup_insert_eq. done.
Qed.

Lemma get_secure_value_sees_earlier_write_witness :
  _cached_value delegate_B = None
  ∧ name delegate_B = name delegate_A
  ∧ (let '(_, (_, w1)) := set_secure_value "c" "3" (delegate_A, world_a1) in
     let '(r, (_, w2)) := get_secure_value "c" VNone (delegate_B, w1) in
     r = Returns (VStr "3")
     ∧ calls w2 = calls w1 ++ [HGETALL (name delegate_A)]
     ∧ db w2 = db w1).
Proof.
  split; [reflexivity|]. split; [reflexivity|].
  apply (get_secure_value_sees_earlier_write
           delegate_A delegate_B world_a1 "c" "3" VNone);
    reflexivity.
Defined.

(** X6.  After [clear_value k], whether it returned or raised, a read of [k]
    through the same delegate gives the default. *)
Theorem get_after_clear_value
    (A : RedisStorageDelegate) (w : World) (k : string) (d : value) :
  (get_secure_value k d (clear_value k (A, w)).2).1 = Returns d.
Proof.
  assert (Hcached : ∀ (S : RedisStorageDelegate) (u : World) (l : loc),
    _cached_value S = Some l ->
    (get_secure_value k d (clear_value k (S, u)).2).1 = Returns d).
  { intros S u l Hc. destruct (deref u l !! k) as [v|] eqn:Hk.
    - pose proof (clear_value_in_place S u l k Hc (lookup_Some_lt _ _ _ _ Hk)) as H.
      destruct (clear_value k (S, u)) as [r [S' u']].
      destruct H as (Hc' & _ & Hd). cbn [snd].
      rewrite (get_secure_value_cached _ _ l) by done.
      rewrite Hd, lookup_delete_eq. done.
    - rewrite (clear_value_absent_cached _ _ l) by done. cbn [snd].
      rewrite (get_secure_value_cached _ _ l) by done. by rewrite Hk. }
  destruct (_cached_value A) as [l|] eqn:Hc; [by apply (Hcached A w l)|].
  rewrite clear_value_uncached by done. unfold loaded.
  by apply (Hcached _ _ (length (heap w))).
Qed.

(** X7.  After [set_secure_value k v], the views that [keys()] and [items()]
    return enumerate [k] and [(k, v)]. *)
Theorem views_after_set_secure_value
    (A : RedisStorageDelegate) (w : World) (k v : string) :
  let '(_, s1) := set_secure_value k v (A, w) in
  let '(rk, (_, wk)) := keys s1 in
  let '(ri, (_, wi)) := items s1 in
  ∃ vk vi, rk = Returns vk ∧ ri = Returns vi
           ∧ k ∈ enumerate_keys wk vk
           ∧ (k, v) ∈ enumerate_items wi vi.
Proof.
  rewrite set_secure_value_eq.
  rewrite (keys_cached _ _ (length (heap w))) by done.
  rewrite (items_cached _ _ (length (heap w))) by done.
  eexists _, _. split; [done|]. split; [done|].
  unfold enumerate_keys, enumerate_items; simpl. rewrite deref_new.
  assert (Hin : (k, v) ∈ map_to_list (<[k := v]> (hash_of w (name A)))).
  { apply elem_of_map_to_list. apply lookup_insert_eq. }
  split; [|done]. apply list_elem_of_fmap. by exists (k, v).
Qed.

(** ** Invariants of every sequence of calls *)

Lemma db_grows_same n0 w w' : db w' = db w -> db_grows n0 w w'.
Proof. intros He. unfold db_grows, hash_of. rewrite He. by split. Qed.

Lemma db_grows_trans n0 w1 w2 w3 :
  db_grows n0 w1 w2 -> db_grows n0 w2 w3 -> db_grows n0 w1 w3.
Proof.
  intros [H1 D1] [H2 D2]. split.
  - intros n Hn. by rewrite H2, H1.
  - intros n. etrans; [apply D1 | apply D2].
Qed.

Lemma db_grows_merge w h cs (m : gmap string string) n0 :
  dom (hash_of w n0) ⊆ dom m ->
  db_grows n0 w {| heap := h; db := <[n0 := m]> (db w); calls := cs |}.
Proof.
  intros Hd. split.
  - intros n Hn. simpl. by rewrite lookup_insert_ne.
  - intros n. destruct (decide (n = n0)) as [->|Hn].
    + by rewrite hash_of_insert.
    + unfold hash_of; simpl. by rewrite lookup_insert_ne.
Qed.

Lemma _save_grows self w :
  let '(self', w') := (_save (self, w)).2 in
  self' = self ∧ db_grows (name self) w w'.
Proof.
  destruct (_cached_value self) as [l|] eqn:Hc.
  - destruct (decide (deref w l = ∅)) as [He|Hne].
    + rewrite (_save_empty _ _ l) by done. split; [done|].
      by apply db_grows_same.
    + rewrite (_save_nonempty _ _ l) by done. split; [done|].
      apply db_grows_merge. rewrite dom_union. set_solver.
  - rewrite _save_uncached by done. split; [done|]. by apply db_grows_same.
Qed.

Lemma clear_value_grows self w k :
  let '(self', w') := (clear_value k (self, w)).2 in
  name self' = name self ∧ db_grows (name self) w w'.
Proof.
  assert (Hcached : ∀ (S : RedisStorageDelegate) (u : World) (l : loc),
    _cached_value S = Some l ->
    let '(S', u') := (clear_value k (S, u)).2 in
    name S' = name S ∧ db_grows (name S) u u').
  { intros S u l Hc. destruct (deref u l !! k) as [v|] eqn:Hk.
    - rewrite (clear_value_present_cached _ _ l k v) by done.
      pose proof (_save_grows S (store l (delete k (deref u l)) u)) as H.
      destruct (_save _).2 as [S' u']. destruct H as [-> Hg].
      split; [done|]. eapply db_grows_trans; [|exact Hg].
      by apply db_grows_same.
    - rewrite (clear_value_absent_cached _ _ l) by done.
      split; [done|]. by apply db_grows_same. }
  destruct (_cached_value self) as [l|] eqn:Hc; [by apply (Hcached self w l)|].
  rewrite clear_value_uncached by done. unfold loaded.
  pose proof (Hcached
    {| name := name self; _cached_value := Some (length (heap w)) |}
    {| heap := heap w ++ [hash_of w (name self)]; db := db w;
       calls := calls w ++ [HGETALL (name self)] |}
    (length (heap w)) eq_refl) as H.
  destruct (clear_value k _).2 as [S' u']. destruct H as [Hn Hg].
  split; [done|]. eapply db_grows_trans; [|exact Hg]. by apply db_grows_same.
Qed.

(** A read leaves a delegate with a cache as it is, and loads one
    without. *)
Lemma after_read c self w :
  is_read c = true ->
  after_call c (self, w)
  = match _cached_value self with
    | Some _ => (self, w)
    | None => loaded self w
    end.
Proof.
  intros Hr. destruct (_cached_value self) as [l|] eqn:Hc;
    destruct c; try discriminate Hr; cbn [after_call].
  - by rewrite (get_secure_value_cached _ _ l).
  - by rewrite (keys_cached _ _ l).
  - by rewrite (items_cached _ _ l).
  - by rewrite get_secure_value_uncached.
  - by rewrite keys_uncached.
  - by rewrite items_uncached.
Qed.

Lemma after_call_grows c self w :
  let '(self', w') := after_call c (self, w) in
  name self' = name self ∧ db_grows (name self) w w'.
Proof.
  destruct (is_read c) eqn:Hr.
  - rewrite after_read by done.
    destruct (_cached_value self); unfold loaded;
      (split; [done|]; by apply db_grows_same).
  - destruct c; try discriminate Hr; cbn [after_call].
    + rewrite set_secure_value_eq. cbn [snd]. split; [done|].
      apply db_grows_merge. rewrite dom_insert. set_solver.
    + apply clear_value_grows.
    + split; [done|]. by apply db_grows_same.
Qed.

Lemma after_calls_grows cs : ∀ self w,
  let '(self', w') := after_calls cs (self, w) in
  name self' = name self ∧ db_grows (name self) w w'.
Proof.
  induction cs as [|c cs IH]; intros self w; cbn [after_calls].
  - split; [done|]. by apply db_grows_same.
  - pose proof (after_call_grows c self w) as H1.
    destruct (after_call c (self, w)) as [self1 w1]. destruct H1 as [Hn1 Hg1].
    pose proof (IH self1 w1) as H2.
    destruct (after_calls cs (self1, w1)) as [self2 w2]. destruct H2 as [Hn2 Hg2].
    split; [congruence|]. rewrite Hn1 in Hg2. by eapply db_grows_trans.
Qed.

(** X8.  No sequence of calls on a delegate ever takes a field away from a
    hash on the server: every field that is there before is there after,
    under every name.  (The delegate only ever writes with [HSET].) *)
Theorem server_fields_never_removed
    (cs : list method_call) (A : RedisStorageDelegate) (w : World) (n : string) :
  dom (hash_of w n) ⊆ dom (hash_of (after_calls cs (A, w)).2 n).
Proof.
  pose proof (after_calls_grows cs A w) as H.
  destruct (after_calls cs (A, w)) as [A' w']. destruct H as [_ [_ Hd]].
  apply Hd.
Qed.

(** X9.  A delegate only touches the hash under its own name: after any
    sequence of calls, what the server holds under every other name is what
    it held before, and the delegate's name has not changed. *)
Theorem other_records_untouched
    (cs : list method_call) (A : RedisStorageDelegate) (w : World) (n : string) :
  n ≠ name A ->
  db (after_calls cs (A, w)).2 !! n = db w !! n
  ∧ name (after_calls cs (A, w)).1 = name A.
Proof.
  intros Hn. pose proof (after_calls_grows cs A w) as H.
  destruct (after_calls cs (A, w)) as [A' w']. destruct H as [Hname [Ho _]].
  split; [by apply Ho | done].
Qed.

Lemma other_records_untouched_witness :
  "ch-cloud-delegate-testing" ≠ name delegate_A
  ∧ db (after_calls [CallSet "c" "3"; CallClear "a"; CallGet "b" VNone]
          (delegate_A, world_a1_b2)).2 !! "ch-cloud-delegate-testing"
    = db world_a1_b2 !! "ch-cloud-delegate-testing"
  ∧ name (after_calls [CallSet "c" "3"; CallClear "a"; CallGet "b" VNone]
            (delegate_A, world_a1_b2)).1 = name delegate_A.
Proof.
  assert (Hne : "ch-cloud-delegate-testing" ≠ name delegate_A)
    by (intros H; discriminate H).
  split; [exact Hne|].
  apply (other_records_untouched
           [CallSet "c" "3"; CallClear "a"; CallGet "b" VNone]
           delegate_A world_a1_b2 "ch-cloud-delegate-testing" Hne).
Defined.

(** X10.  Reads never write and load at most once: after any non-empty
    sequence of [get_secure_value], [keys] and [items] calls, a delegate
    that had a cache is exactly as it was, with no call made on the client,
    and a delegate that had none is in the state that a single load leaves,
    with one [HGETALL] made. *)
Theorem reads_load_at_most_once
    (cs : list method_call) (A : RedisStorageDelegate) (w : World) :
  forallb is_read cs = true ->
  cs ≠ [] ->
  after_calls cs (A, w)
  = match _cached_value A with
    | Some _ => (A, w)
    | None => loaded A w
    end.
Proof.
  intros Hr Hne. destruct cs as [|c cs]; [done|]. clear Hne.
  cbn [forallb] in Hr. apply andb_prop in Hr as [Hc Hcs].
  cbn [after_calls]. rewrite after_read by done.
  assert (Hfix : ∀ S u l, _cached_value S = Some l ->
                          after_calls cs (S, u) = (S, u)).
  { clear Hc. induction cs as [|c' cs IH]; intros S u l HS; [done|].
    cbn [forallb] in Hcs. apply andb_prop in Hcs as [Hc' Hcs].
    cbn [after_calls]. rewrite after_read by done. rewrite HS.
    by apply (IH Hcs S u l). }
  destruct (_cached_value A) as [l|] eqn:HA.
  - by apply (Hfix A w l).
  - unfold loaded. by apply (Hfix _ _ (length (heap w))).
Qed.

Lemma reads_load_at_most_once_witness :
  forallb is_read [CallGet "a" VNone; CallKeys; CallGet "zz" VNone; CallItems]
  = true
  ∧ [CallGet "a" VNone; CallKeys; CallGet "zz" VNone; CallItems] ≠ []
  ∧ after_calls [CallGet "a" VNone; CallKeys; CallGet "zz" VNone; CallItems]
      (delegate_A, world_a1)
    = match _cached_value delegate_A with
      | Some _ => (delegate_A, world_a1)
      | None => loaded delegate_A world_a1
      end.
Proof.
  assert (Hne : [CallGet "a" VNone; CallKeys; CallGet "zz" VNone; CallItems] ≠ [])
    by (intros H; discriminate H).
  split; [reflexivity|]. split; [exact Hne|].
  apply (reads_load_at_most_once
           [CallGet "a" VNone; CallKeys; CallGet "zz" VNone; CallItems]
           delegate_A world_a1 eq_refl Hne).
Defined.

(** * [list_patients] *)

Lemma prefix_nil s : String.prefix "" s = true.
Proof. by destruct s. Qed.

Lemma prefix_app p s : String.prefix p (p +:+ s) = true.
Proof.
  induction p as [|a p IH]; [apply prefix_nil|].
  change (String a p +:+ s) with (String a (p +:+ s)). cbn [String.prefix].
  by destruct (Ascii.ascii_dec a a).
Qed.

Lemma prefix_inv p : ∀ s,
  String.prefix p s = true -> s = p +:+ skip (String.length p) s.
Proof.
  induction p as [|a p IH]; intros s Hp; [done|].
  destruct s as [|b s]; [done|]. cbn [String.prefix] in Hp.
  destruct (Ascii.ascii_dec a b) as [->|]; [|done].
  cbn [String.length skip].
  change (String b p +:+ skip (String.length p) s)
    with (String b (p +:+ skip (String.length p) s)).
  f_equal. by apply IH.
Qed.

Lemma skip_app p s : skip (String.length p) (p +:+ s) = s.
Proof.
  induction p as [|a p IH]; [done|].
  change (String a p +:+ s) with (String a (p +:+ s)). cbn [String.length skip].
  apply IH.
Qed.

Lemma startswith_iff key p :
  startswith key p = true <-> ∃ n, key = p +:+ n.
Proof.
  unfold startswith. split.
  - intros H. eexists. by apply prefix_inv.
  - intros [n ->]. apply prefix_app.
Qed.

(** The first ["/"] of a key with the prefix is the one that ends the
    prefix, so the name is all that follows it, later slashes included. *)
Lemma partition_prefixed n :
  partition ("patient_id_mapping/" +:+ n) "/" = ("patient_id_mapping", "/", n).
Proof. by destruct n. Qed.

Lemma patient_of_Some key n :
  patient_of key = Some n <-> key = "patient_id_mapping/" +:+ n.
Proof.
  unfold patient_of. split.
  - destruct (startswith key _) eqn:Hs; [|done]. intros [= <-].
    by apply prefix_inv.
  - intros ->. rewrite (proj2 (startswith_iff _ _)) by eauto.
    by rewrite (skip_app "patient_id_mapping/").
Qed.

Lemma list_patients_step_eq patient_list key :
  list_patients_step patient_list key
  = patient_list ++ option_list (patient_of key).
Proof.
  unfold list_patients_step, patient_of.
  destruct (startswith key _) eqn:Hs; [|by rewrite app_nil_r].
  apply startswith_iff in Hs as [n ->].
  rewrite partition_prefixed. by rewrite (skip_app "patient_id_mapping/").
Qed.

Lemma list_patients_loop keys_ : ∀ patient_list,
  foldl list_patients_step patient_list keys_
  = patient_list ++ omap patient_of keys_.
Proof.
  induction keys_ as [|key keys_ IH]; intros acc; cbn [foldl].
  - by rewrite app_nil_r.
  - rewrite IH, list_patients_step_eq. cbn [omap list_omap].
    rewrite <- app_assoc. f_equal. by destruct (patient_of key).
Qed.

Lemma list_patients_eq self w :
  list_patients (self, w)
  = (Returns (omap patient_of (map_to_list (secret_view self w)).*1),
     match _cached_value self with
     | Some _ => (self, w)
     | None => loaded self w
     end).
Proof.
  unfold list_patients. destruct (_cached_value self) as [l|] eqn:Hc.
  - rewrite (bind_Returns _ _ _ _ _ (keys_cached _ _ l Hc)).
    unfold bind, get_world, ret, enumerate_keys; simpl.
    rewrite list_patients_loop. unfold secret_view. by rewrite Hc.
  - rewrite (bind_Returns _ _ _ _ _ (keys_uncached _ _ Hc)).
    unfold loaded, bind, get_world, ret, enumerate_keys; simpl.
    rewrite list_patients_loop, deref_new. unfold secret_view. by rewrite Hc.
Qed.

Lemma NoDup_omap_inj {X Y} (f : X -> option Y) (l : list X) :
  (∀ x x' y, f x = Some y -> f x' = Some y -> x = x') ->
  NoDup l -> NoDup (omap f l).
Proof.
  intros Hinj. induction 1 as [|x l Hx Hl IH]; cbn; [constructor|].
  destruct (f x) as [y|] eqn:Hfx; [|done].
  constructor; [|done]. intros Hy.
  apply list_elem_of_omap in Hy as (x' & Hx' & Hfx').
  by rewrite (Hinj x x' y Hfx Hfx') in Hx.
Qed.

Lemma elem_of_patients (m : gmap string string) (n : string) :
  n ∈ omap patient_of (map_to_list m).*1
  <-> is_Some (m !! ("patient_id_mapping/" +:+ n)).
Proof.
  rewrite list_elem_of_omap. split.
  - intros (key & Hkey & Hp). apply patient_of_Some in Hp as ->.
    apply list_elem_of_fmap in Hkey as ([k v] & -> & Hkv).
    apply elem_of_map_to_list in Hkv. by exists v.
  - intros [v Hv]. exists ("patient_id_mapping/" +:+ n). split.
    + apply list_elem_of_fmap. exists ("patient_id_mapping/" +:+ n, v).
      split; [done|]. by apply elem_of_map_to_list.
    + by apply patient_of_Some.
Qed.

(** X11.  [list_patients] returns exactly the patient names: [n] is in the
    list if and only if the record, as the delegate sees it, has the key
    ["patient_id_mapping/" ++ n]; [n] is all that follows the prefix, later
    slashes included, and keys without the prefix contribute nothing.  The
    call only reads: the delegate and the world end as after a read. *)
Theorem list_patients_lists_prefixed_keys
    (A : RedisStorageDelegate) (w : World) :
  let '(r, s') := list_patients (A, w) in
  ∃ ps, r = Returns ps
        ∧ (∀ n, n ∈ ps
                <-> is_Some (secret_view A w !! ("patient_id_mapping/" +:+ n)))
        ∧ s' = match _cached_value A with
               | Some _ => (A, w)
               | None => loaded A w
               end.
Proof.
  rewrite list_patients_eq. eexists. split; [done|]. split; [|done].
  intros n. apply elem_of_patients.
Qed.

(** X12.  [list_patients] never lists a patient twice. *)
Theorem list_patients_NoDup (A : RedisStorageDelegate) (w : World) :
  ∃ ps, (list_patients (A, w)).1 = Returns ps ∧ NoDup ps.
Proof.
  rewrite list_patients_eq. eexists. split; [done|].
  apply NoDup_omap_inj; [|apply NoDup_fst_map_to_list].
  intros x x' y Hx Hx'. apply patient_of_Some in Hx, Hx'. congruence.
Qed.

(** X13.  A patient stored with [set_secure_value] under
    ["patient_id_mapping/" ++ n] is listed by [list_patients], together with
    every patient that the record held before. *)
Theorem list_patients_after_set_secure_value
    (A : RedisStorageDelegate) (w : World) (n v : string) :
  let '(_, s1) := set_secure_value ("patient_id_mapping/" +:+ n) v (A, w) in
  ∃ ps, (list_patients s1).1 = Returns ps
        ∧ n ∈ ps
        ∧ (∀ n', is_Some (hash_of w (name A) !! ("patient_id_mapping/" +:+ n'))
                 -> n' ∈ ps).
Proof.
  rewrite set_secure_value_eq. rewrite list_patients_eq.
  eexists. split; [done|].
  unfold secret_view; cbn [_cached_value]. rewrite deref_new.
  split.
  - apply elem_of_patients. rewrite lookup_insert_eq. eauto.
  - intros n' [v' Hn']. apply elem_of_patients.
    rewrite lookup_insert. case_decide; eauto.
Qed.

(** * [JupyterHealthCHClient.__init__] *)

(** The names of the keyword arguments that the constructor fills in. *)
Lemma dom_default_kwargs {obj} storage (pid cid sec : pyval obj) :
  dom (default_kwargs storage pid cid sec)
  = list_to_set ["ch_authorization_deeplink"; "ch_host"; "ch_port"; "ch_scheme";
                 "storage_delegate"; "partner_id"; "client_id"; "client_secret"].
Proof. unfold default_kwargs. rewrite dom_list_to_map_L. done. Qed.

(** What a constructor call that returned has gone through. *)
Lemma JupyterHealthCHClient__init___Done {ext obj} (out : Outside ext obj)
    dep cl user c :
  JupyterHealthCHClient__init__ out dep cl user = Done c ->
  ∃ sc s fields pid cid sec,
    match cl with None => boto3_client out | Some c' => Done c' end = Done sc
    ∧ sc ("ch-cloud-creds-" +:+ dep) = Done (Some s)
    ∧ json_loads out s = Done (JObject fields)
    ∧ fields !! "partner_id" = Some pid
    ∧ fields !! "client_id" = Some cid
    ∧ fields !! "client_secret" = Some sec
    ∧ CHClient__init__ out (base_kwargs c) = Done tt
    ∧ c = {| deployment := dep; client := sc;
             base_kwargs :=
               user ∪ default_kwargs (__init__ ("ch-cloud-delegate-" +:+ dep))
                                     pid cid sec |}.
Proof.
  unfold JupyterHealthCHClient__init__. intros H.
  destruct (match cl with None => boto3_client out | Some c' => Done c' end)
    as [sc| |] eqn:Hsc; try discriminate H. cbn [init_bind] in H.
  destruct (sc _) as [[s|]| |] eqn:Hs; try discriminate H. cbn in H.
  destruct (json_loads out s) as [[fields|]| |] eqn:Hj; try discriminate H.
  cbn in H.
  destruct (fields !! "partner_id") as [pid|] eqn:Hp; try discriminate H.
  cbn in H.
  destruct (fields !! "client_id") as [cid|] eqn:Hc; try discriminate H.
  cbn in H.
  destruct (fields !! "client_secret") as [sec|] eqn:Hx; try discriminate H.
  cbn in H.
  destruct (CHClient__init__ out _) as [[]| |] eqn:Hb; try discriminate H.
  cbn in H. injection H as <-. exists sc, s, fields, pid, cid, sec.
  repeat split; done.
Qed.

(** X14.  When the constructor returns, the keyword arguments handed to the
    base class are the caller's own on top of the defaults: every argument
    the caller passed has the caller's value, and each of the eight defaults
    that the caller did not pass is in place: the storage delegate is a new
    delegate without a cache on the record ["ch-cloud-delegate-" ++
    deployment], host ["chcs.tcpdev.org"], port 443, scheme ["https"], the
    authorization deeplink, and [partner_id], [client_id] and
    [client_secret] are the fields of those names of the JSON object read
    from the secret ["ch-cloud-creds-" ++ deployment].  There is no other
    argument. *)
Theorem client_kwargs_defaults_and_overrides {ext obj} (out : Outside ext obj)
    (dep : string) (cl : option (secrets_client ext))
    (user : gmap string (pyval obj)) (c : JupyterHealthCHClient ext obj) :
  JupyterHealthCHClient__init__ out dep cl user = Done c ->
  deployment c = dep
  ∧ CHClient__init__ out (base_kwargs c) = Done tt
  ∧ (∀ k v, user !! k = Some v -> base_kwargs c !! k = Some v)
  ∧ (user !! "storage_delegate" = None ->
     base_kwargs c !! "storage_delegate"
     = Some (PStorage (__init__ ("ch-cloud-delegate-" +:+ dep))))
  ∧ (user !! "ch_host" = None ->
     base_kwargs c !! "ch_host" = Some (PStr "chcs.tcpdev.org"))
  ∧ (user !! "ch_port" = None -> base_kwargs c !! "ch_port" = Some (PInt 443))
  ∧ (user !! "ch_scheme" = None ->
     base_kwargs c !! "ch_scheme" = Some (PStr "https"))
  ∧ (user !! "ch_authorization_deeplink" = None ->
     base_kwargs c !! "ch_authorization_deeplink"
     = Some (PStr "https://appdev.tcpdev.org/m/phr/cloud-sharing/authorize"))
  ∧ (∃ s fields,
       match cl with None => boto3_client out | Some c' => Done c' end
       = Done (client c)
       ∧ client c ("ch-cloud-creds-" +:+ dep) = Done (Some s)
       ∧ json_loads out s = Done (JObject fields)
       ∧ is_Some (fields !! "partner_id")
       ∧ is_Some (fields !! "client_id")
       ∧ is_Some (fields !! "client_secret")
       ∧ (user !! "partner_id" = None ->
          base_kwargs c !! "partner_id" = fields !! "partner_id")
       ∧ (user !! "client_id" = None ->
          base_kwargs c !! "client_id" = fields !! "client_id")
       ∧ (user !! "client_secret" = None ->
          base_kwargs c !! "client_secret" = fields !! "client_secret"))
  ∧ dom (base_kwargs c)
    = dom user
      ∪ list_to_set ["ch_authorization_deeplink"; "ch_host"; "ch_port";
                     "ch_scheme"; "storage_delegate"; "partner_id";
                     "client_id"; "client_secret"].
Proof.
  intros H.
  apply JupyterHealthCHClient__init___Done in H
    as (sc & s & fields & pid & cid & sec & Hsc & Hs & Hj & Hp & Hc & Hx & Hb & ->).
  cbn [deployment base_kwargs client] in *. split; [done|]. split; [done|].
  split; [intros k v Hk; by apply lookup_union_Some_l|].
  do 5 (split; [intros Hu; by rewrite lookup_union_r|]).
  split; [|by rewrite dom_union_L, dom_default_kwargs].
  exists s, fields. rewrite Hp, Hc, Hx.
  repeat split; eauto; intros Hu; by rewrite lookup_union_r.
Qed.

Lemma client_kwargs_defaults_and_overrides_witness :
  ∃ c, JupyterHealthCHClient__init__ example_outside "prod" None
         {[ "ch_host" := PStr "localhost" ]} = Done c
       ∧ base_kwargs c !! "ch_host" = Some (PStr "localhost")
       ∧ base_kwargs c !! "storage_delegate"
         = Some (PStorage (__init__ "ch-cloud-delegate-prod"))
       ∧ base_kwargs c !! "partner_id" = Some (PStr "p")
       ∧ base_kwargs c !! "client_id" = Some (PStr "c")
       ∧ base_kwargs c !! "client_secret" = Some (PStr "s").
Proof.
  eexists. split; [reflexivity|].
  pose proof (client_kwargs_defaults_and_overrides example_outside "prod" None
                {[ "ch_host" := PStr "localhost" ]} _ eq_refl)
    as (_ & _ & Hu & Hs & _ & _ & _ & _ & Hcred & _).
  split; [apply Hu; reflexivity|]. split; [apply Hs; reflexivity|].
  destruct Hcred as (s & fields & _ & _ & Hj & _ & _ & _ & Hp & Hc & Hx).
  injection Hj as <-.
  rewrite (Hp eq_refl), (Hc eq_refl), (Hx eq_refl).
  repeat split.
Defined.

(** X15.  The three credentials are read from the secret before the
    caller's keyword arguments are applied, in the order [partner_id],
    [client_id], [client_secret]: when the secret's JSON object lacks one of
    them, the constructor raises [KeyError] for the first one that is
    missing, whatever keyword arguments the caller passed, these three
    included. *)
Theorem client_credentials_required {ext obj} (out : Outside ext obj)
    (dep : string) (cl : option (secrets_client ext)) (sc : secrets_client ext)
    (user : gmap string (pyval obj)) (s : string)
    (fields : gmap string (pyval obj)) (missing : string) :
  match cl with None => boto3_client out | Some c' => Done c' end = Done sc ->
  sc ("ch-cloud-creds-" +:+ dep) = Done (Some s) ->
  json_loads out s = Done (JObject fields) ->
  List.find (lacks fields) ["partner_id"; "client_id"; "client_secret"]
  = Some missing ->
  JupyterHealthCHClient__init__ out dep cl user = Fails (KeyError missing).
Proof.
  intros Hsc Hs Hj Hm. unfold JupyterHealthCHClient__init__.
  rewrite Hsc. cbn [init_bind]. rewrite Hs. cbn [init_bind response_getitem].
  rewrite Hj. cbn [init_bind json_getitem].
  cbn [List.find] in Hm. unfold lacks in Hm.
  destruct (fields !! "partner_id"); [|by injection Hm as <-].
  cbn [init_bind].
  destruct (fields !! "client_id"); [|by injection Hm as <-].
  cbn [init_bind].
  destruct (fields !! "client_secret"); [done|by injection Hm as <-].
Qed.

Lemma client_credentials_required_witness :
  match @None (secrets_client unit) with
  | None => boto3_client example_outside_partial
  | Some c' => Done c'
  end = Done example_secrets
  ∧ example_secrets ("ch-cloud-creds-" +:+ "prod") = Done (Some "{...}")
  ∧ json_loads example_outside_partial "{...}"
    = Done (JObject {[ "partner_id" := PStr "p" ]})
  ∧ List.find (lacks ({[ "partner_id" := PStr "p" ]} : gmap string (pyval unit)))
      ["partner_id"; "client_id"; "client_secret"] = Some "client_id"
  ∧ JupyterHealthCHClient__init__ example_outside_partial
      "prod" None {[ "client_id" := PStr "mine" ]}
    = Fails (KeyError "client_id").
Proof.
  repeat (split; [reflexivity|]).
  apply (client_credentials_required example_outside_partial
           "prod" None example_secrets {[ "client_id" := PStr "mine" ]}
           "{...}" {[ "partner_id" := PStr "p" ]} "client_id");
    reflexivity.
Defined.

(** X16.  A secret that cannot be used stops the constructor before the
    base class is reached: a response without ["SecretString"] raises
    [KeyError "SecretString"], and a secret string whose JSON is not an
    object raises [TypeError] at the first credential lookup. *)
Theorem client_malformed_secret {ext obj} (out : Outside ext obj)
    (dep : string) (cl : option (secrets_client ext)) (sc : secrets_client ext)
    (user : gmap string (pyval obj)) :
  match cl with None => boto3_client out | Some c' => Done c' end = Done sc ->
  (sc ("ch-cloud-creds-" +:+ dep) = Done None ->
   JupyterHealthCHClient__init__ out dep cl user
   = Fails (KeyError "SecretString"))
  ∧ (∀ s o, sc ("ch-cloud-creds-" +:+ dep) = Done (Some s) ->
            json_loads out s = Done (JOther o) ->
            JupyterHealthCHClient__init__ out dep cl user = Fails TypeError).
Proof.
  intros Hsc. unfold JupyterHealthCHClient__init__. rewrite Hsc.
  cbn [init_bind]. split.
  - intros Hs. by rewrite Hs.
  - intros s o Hs Hj. rewrite Hs. cbn [init_bind response_getitem].
    by rewrite Hj.
Qed.

Lemma client_malformed_secret_witness :
  match Some example_secrets_no_string with
  | None => boto3_client example_outside
  | Some c' => Done c'
  end = Done example_secrets_no_string
  ∧ JupyterHealthCHClient__init__ example_outside "testing"
      (Some example_secrets_no_string) ∅
    = Fails (KeyError "SecretString").
Proof.
  split; [reflexivity|].
  apply (client_malformed_secret example_outside "testing"
           (Some example_secrets_no_string) example_secrets_no_string ∅
           eq_refl).
  reflexivity.
Defined.

(** * More on reads and deletes *)

(** X17.  When the record as the delegate sees it has an entry [k := v],
    [get_secure_value k d] returns [v], whatever the default; the hashes on
    the server are unchanged, and the only possible effect is the lazy load
    of a delegate without a cache. *)
Theorem get_secure_value_present_key
    (A : RedisStorageDelegate) (w : World) (k v : string) (d : value) :
  secret_view A w !! k = Some v ->
  let '(r, (A', w')) := get_secure_value k d (A, w) in
  r = Returns (VStr v)
  ∧ db w' = db w
  ∧ (A', w') = match _cached_value A with
               | Some _ => (A, w)
               | None => loaded A w
               end.
Proof.
  intros Hk. unfold secret_view in Hk.
  destruct (_cached_value A) as [l|] eqn:Hc.
  - rewrite (get_secure_value_cached _ _ l) by done. by rewrite Hk.
  - rewrite get_secure_value_uncached by done. by rewrite Hk.
Qed.

Lemma get_secure_value_present_key_witness :
  secret_view delegate_A world_a1_b2 !! "b" = Some "2"
  ∧ (let '(r, (A', w')) :=
       get_secure_value "b" (VStr "fallback") (delegate_A, world_a1_b2) in
     r = Returns (VStr "2")
     ∧ db w' = db world_a1_b2
     ∧ (A', w') = match _cached_value delegate_A with
                  | Some _ => (delegate_A, world_a1_b2)
                  | None => loaded delegate_A world_a1_b2
                  end).
Proof.
  split; [reflexivity|].
  apply (get_secure_value_present_key delegate_A world_a1_b2 "b" "2"
           (VStr "fallback")).
  reflexivity.
Defined.

(** X18.  In the delegate's own view, [clear_value k] removes exactly [k]:
    after the call, returned or raised, the record as the delegate sees it
    is the one it saw before without [k], so every other key has the value
    it had. *)
Theorem clear_value_local_effect
    (A : RedisStorageDelegate) (w : World) (k : string) :
  let '(_, (A', w')) := clear_value k (A, w) in
  secret_view A' w' = delete k (secret_view A w)
  ∧ (∀ k', k' ≠ k -> secret_view A' w' !! k' = secret_view A w !! k').
Proof.
  assert (Hcached : ∀ (S : RedisStorageDelegate) (u : World) (l : loc),
    _cached_value S = Some l ->
    let '(_, (S', u')) := clear_value k (S, u) in
    secret_view S' u' = delete k (deref u l)).
  { intros S u l Hc. destruct (deref u l !! k) as [v|] eqn:Hk.
    - pose proof (clear_value_in_place S u l k Hc (lookup_Some_lt _ _ _ _ Hk)) as H.
      destruct (clear_value k (S, u)) as [r [S' u']].
      destruct H as (Hc' & _ & Hd). unfold secret_view. by rewrite Hc'.
    - rewrite (clear_value_absent_cached _ _ l) by done.
      unfold secret_view. rewrite Hc. by rewrite delete_id. }
  assert (Hview : let '(_, (A', w')) := clear_value k (A, w) in
                  secret_view A' w' = delete k (secret_view A w)).
  { destruct (_cached_value A) as [l|] eqn:Hc.
    - pose proof (Hcached A w l Hc) as H. unfold secret_view at 2.
      by rewrite Hc.
    - rewrite clear_value_uncached by done. unfold loaded.
      pose proof (Hcached
        {| name := name A; _cached_value := Some (length (heap w)) |}
        {| heap := heap w ++ [hash_of w (name A)]; db := db w;
           calls := calls w ++ [HGETALL (name A)] |}
        (length (heap w)) eq_refl) as H.
      rewrite deref_new in H. unfold secret_view at 2. by rewrite Hc. }
  destruct (clear_value k (A, w)) as [r [A' w']].
  split; [done|]. intros k' Hk'. rewrite Hview. by rewrite lookup_delete_ne.
Qed.

(** X19.  A delete does not reach other delegates: when a delegate without
    a cache clears a key that the server holds, and it is not the only key of
    the record, a delegate created afterwards on the same record still reads
    the key's value. *)
Theorem cleared_key_still_read_by_new_delegate
    (A B : RedisStorageDelegate) (w : World) (k v : string) (d : value) :
  _cached_value A = None ->
  _cached_value B = None ->
  name B = name A ->
  hash_of w (name A) !! k = Some v ->
  delete k (hash_of w (name A)) ≠ ∅ ->
  let '(r, (A1, w1)) := clear_value k (A, w) in
  r = Returns tt
  ∧ (get_secure_value k d (A1, w1)).1 = Returns d
  ∧ (get_secure_value k d (B, w1)).1 = Returns (VStr v).
Proof.
  intros HA HB Hn Hk Hne. rewrite clear_value_uncached by done. unfold loaded.
  rewrite (clear_value_present_eq _ _ (length (heap w)) k v);
    [| done | by rewrite deref_new | by rewrite deref_new].
  rewrite deref_new. cbn [name heap db calls]. split; [done|]. split.
  - rewrite (get_secure_value_cached _ _ (length (heap w))) by done.
    cbn [fst]. unfold deref; cbn [heap].
    rewrite insert_app_r_alt by lia. rewrite Nat.sub_diag. cbn [insert list_insert].
    rewrite list_lookup_middle by done. cbn [default]. unfold id.
    by rewrite lookup_delete_eq.
  - rewrite get_secure_value_uncached by done. cbn [fst]. rewrite Hn.
    rewrite hash_of_insert.
    unfold hash_of at 1; cbn [db]. fold (hash_of w (name A)).
    rewrite (map_subseteq_union _ _ (delete_subseteq _ _)). by rewrite Hk.
Qed.

Lemma cleared_key_still_read_by_new_delegate_witness :
  _cached_value delegate_A = None
  ∧ _cached_value delegate_B = None
  ∧ name delegate_B = name delegate_A
  ∧ hash_of world_a1_b2 (name delegate_A) !! "a" = Some "1"
  ∧ delete "a" (hash_of world_a1_b2 (name delegate_A)) ≠ ∅
  ∧ (let '(r, (A1, w1)) := clear_value "a" (delegate_A, world_a1_b2) in
     r = Returns tt
     ∧ (get_secure_value "a" VNone (A1, w1)).1 = Returns VNone
     ∧ (get_secure_value "a" VNone (delegate_B, w1)).1 = Returns (VStr "1")).
Proof.
  assert (Hne : delete "a" (hash_of world_a1_b2 (name delegate_A)) ≠ ∅).
  { intros H. vm_compute in H. discriminate H. }
  repeat (split; [reflexivity|]). split; [exact Hne|].
  apply (cleared_key_still_read_by_new_delegate
           delegate_A delegate_B world_a1_b2 "a" "1" VNone
           eq_refl eq_refl eq_refl eq_refl Hne).
Defined.

(** X20.  A record that does not exist on the server reads as an empty one:
    for a delegate without a cache, a read gives the default, the key view
    enumerates nothing, [list_patients] is empty and [clear_value] returns
    without an error; the first [set_secure_value k v] creates the record
    with the single field [k := v]. *)
Theorem missing_record_reads_as_empty
    (A : RedisStorageDelegate) (w : World) (k v : string) (d : value) :
  _cached_value A = None ->
  db w !! name A = None ->
  (get_secure_value k d (A, w)).1 = Returns d
  ∧ (∃ vk, (keys (A, w)).1 = Returns vk
           ∧ enumerate_keys (keys (A, w)).2.2 vk = [])
  ∧ (list_patients (A, w)).1 = Returns []
  ∧ (clear_value k (A, w)).1 = Returns tt
  ∧ hash_of (set_secure_value k v (A, w)).2.2 (name A) = {[ k := v ]}.
Proof.
  intros Hc Hdb.
  assert (Hh : hash_of w (name A) = ∅) by (unfold hash_of; by rewrite Hdb).
  assert (Hv : secret_view A w = ∅) by (unfold secret_view; by rewrite Hc).
  repeat split.
  - rewrite get_secure_value_uncached by done. by rewrite Hh.
  - rewrite keys_uncached by done. eexists. split; [done|].
    unfold loaded, enumerate_keys; cbn [fst snd keys_dict].
    rewrite deref_new, Hh. by rewrite map_to_list_empty.
  - rewrite list_patients_eq. rewrite Hv. by rewrite map_to_list_empty.
  - rewrite clear_value_uncached by done. unfold loaded.
    rewrite (clear_value_absent_cached _ _ (length (heap w))); [done|done|].
    by rewrite deref_new, Hh.
  - rewrite set_secure_value_eq. cbn [snd]. rewrite hash_of_insert.
    by rewrite Hh.
Qed.

Lemma missing_record_reads_as_empty_witness :
  _cached_value delegate_A = None
  ∧ db world_empty !! name delegate_A = None
  ∧ (get_secure_value "a" VNone (delegate_A, world_empty)).1 = Returns VNone
  ∧ (∃ vk, (keys (delegate_A, world_empty)).1 = Returns vk
           ∧ enumerate_keys (keys (delegate_A, world_empty)).2.2 vk = [])
  ∧ (list_patients (delegate_A, world_empty)).1 = Returns []
  ∧ (clear_value "a" (delegate_A, world_empty)).1 = Returns tt
  ∧ hash_of (set_secure_value "a" "1" (delegate_A, world_empty)).2.2
      (name delegate_A) = {[ "a" := "1" ]}.
Proof.
  split; [reflexivity|]. split; [reflexivity|].
  apply (missing_record_reads_as_empty delegate_A world_empty "a" "1" VNone);
    reflexivity.
Defined.
